(** * blackhole_ocl: the two OpenCL kernels of the Schwarzschild ray tracer

    [rays.ocl.c] integrates null geodesics outside a Schwarzschild black hole
    and records, for every ray of a fan, whether it is captured or escapes and
    at which angle.  [render.ocl.c] looks the outcome of every screen pixel up
    in that table and samples one of two textures.

    The embedding follows the C text expression by expression.

    - [int], [unsigned int] and [unsigned char] are [Z] with the wrap-around
      written out ([Int]).
    - [float] is IEEE-754 binary32, carried by [spec_float] of the standard
      library; [+ - * /] and [sqrt] are correctly rounded, to nearest even
      ([FP]).  An unsuffixed literal such as [2.] and the macro [M_PI] are
      [double] where the device has double precision, and are read as
      [float] where it has not or under [-cl-single-precision-constant]; the
      format of these literals is the parameter [lit] of the kernels, and
      the usual arithmetic conversions are written out with [D] (promote to
      [lit]) and [F] (round to [float]).
    - [sin], [cos], [acos], [atan2], [length] and [read_imagef] belong to the
      OpenCL runtime; they are parameters of the kernels.
    - Reading or writing an array out of range, converting a float that is
      not in range to [int], and dividing an [int] by zero have no defined
      result: the embedding returns [None] there. *)

From Stdlib Require Import ZArith Bool List Lia.
From Stdlib Require Import Floats.SpecFloat.
From stdpp Require Import base list.

Local Open Scope Z_scope.

(** ** Machine integers *)

Module Int.

Definition INT_MIN : Z := - 2 ^ 31.
Definition INT_MAX : Z := 2 ^ 31 - 1.

(** Two's complement reduction to 32 bits, signed. *)
Definition wrap_int (z : Z) : Z := (z + 2 ^ 31) mod 2 ^ 32 - 2 ^ 31.

(** Reduction to [unsigned char]. *)
Definition wrap_uchar (z : Z) : Z := z mod 256.

Definition add (a b : Z) : Z := wrap_int (a + b).
Definition sub (a b : Z) : Z := wrap_int (a - b).
Definition mul (a b : Z) : Z := wrap_int (a * b).

(** [a / b] on [int]: truncation towards zero; no result for [b = 0]. *)
Definition div (a b : Z) : option Z :=
  if b =? 0 then None else Some (wrap_int (Z.quot a b)).

End Int.

(** Goals about the range of [int]. *)
Ltac int_range := unfold Int.INT_MIN, Int.INT_MAX in *; simpl length in *; lia.

(** ** IEEE-754 binary floating point *)

Module FP.

Record format := Format { prec : Z; emax : Z }.

Definition binary32 : format := Format 24 128.
Definition binary64 : format := Format 53 1024.

Section Ops.
Variable f : format.

Definition add := SFadd (prec f) (emax f).
Definition sub := SFsub (prec f) (emax f).
Definition mul := SFmul (prec f) (emax f).
Definition div := SFdiv (prec f) (emax f).
Definition sqrt := SFsqrt (prec f) (emax f).

(** Conversion of an integer, and of a float of any format, to [f]. *)
Definition of_Z (z : Z) : spec_float :=
  binary_normalize (prec f) (emax f) z 0 false.

Definition cvt (x : spec_float) : spec_float :=
  match x with
  | S754_finite s m e => binary_round (prec f) (emax f) s m e
  | _ => x
  end.

(** The decimal literal [n / d], correctly rounded. *)
Definition literal (n d : positive) : spec_float :=
  div (S754_finite false n 0) (S754_finite false d 0).
End Ops.

Definition opp : spec_float -> spec_float := SFopp.
Definition leb : spec_float -> spec_float -> bool := SFleb.
Definition ltb : spec_float -> spec_float -> bool := SFltb.
Definition eqb : spec_float -> spec_float -> bool := SFeqb.

Definition zero : spec_float := S754_zero false.

Definition is_zero (x : spec_float) : bool :=
  match x with S754_zero _ => true | _ => false end.

Definition is_finite (x : spec_float) : bool :=
  match x with S754_zero _ | S754_finite _ _ _ => true | _ => false end.

(** The integer part of [m * 2 ^ e], rounded down. *)
Definition scale_down (m e : Z) : Z :=
  match e with
  | Zneg p => m / 2 ^ Zpos p
  | _ => m * 2 ^ e
  end.

(** Rounding to an integer: towards zero ([trunc], the C cast) and towards
    minus infinity ([floor]). *)
Definition trunc (x : spec_float) : option Z :=
  match x with
  | S754_zero _ => Some 0
  | S754_finite s m e => Some (cond_Zopp s (scale_down (Zpos m) e))
  | _ => None
  end.

Definition floor (x : spec_float) : option Z :=
  match x with
  | S754_zero _ => Some 0
  | S754_finite s m e => Some (scale_down (cond_Zopp s (Zpos m)) e)
  | _ => None
  end.

(** [(int)x]: defined when the truncated value is an [int]. *)
Definition to_int (x : spec_float) : option Z :=
  match trunc x with
  | Some z => if (Int.INT_MIN <=? z) && (z <=? Int.INT_MAX) then Some z else None
  | None => None
  end.

(** [(unsigned char)x]: truncation; the byte a value out of range gives is
    left to the implementation, here the truncated value reduced to 8 bits
    and 0 for infinities and NaN. *)
Definition to_uchar (x : spec_float) : Z :=
  match trunc x with
  | Some z => Int.wrap_uchar z
  | None => 0
  end.

End FP.

Abbreviation binary32 := FP.binary32.
Abbreviation binary64 := FP.binary64.

Declare Scope float_scope.
Declare Scope device_scope.
Delimit Scope device_scope with dev.
Declare Scope double_scope.
Delimit Scope float_scope with f.
Delimit Scope double_scope with d.

(** ** Data of the two kernels *)

(** The state of one ray: position [(r, theta)] and its rates. *)
Record ray := Ray {
  ray_r : spec_float;
  ray_theta : spec_float;
  ray_dr : spec_float;
  ray_dtheta : spec_float
}.

Record float2 := Float2 { f2x : spec_float; f2y : spec_float }.
Record float3 := Float3 { f3x : spec_float; f3y : spec_float; f3z : spec_float }.
Record float4 := Float4 {
  f4x : spec_float; f4y : spec_float; f4z : spec_float; f4w : spec_float
}.

(** [struct Pixel]: four bytes, in the order [a], [r], [g], [b]. *)
Record Pixel := mkPixel { a : Z; r : Z; g : Z; b : Z }.

(** [struct res_t]. *)
Record res_t := mkRes { angle : spec_float; outcome : Z }.

(** Array access: [load] reads [arr[i]], [store] writes it. *)
Definition load {A} (arr : list A) (i : Z) : option A :=
  if 0 <=? i then arr !! Z.to_nat i else None.

Definition store {A} (arr : list A) (i : Z) (v : A) : option (list A) :=
  if (0 <=? i) && (i <? Z.of_nat (length arr))
  then Some (<[Z.to_nat i := v]> arr) else None.

(** ** A reference device

    One implementation of the built-in functions, on which the kernels can be
    run: the elementary functions by argument reduction and truncated Taylor
    series, evaluated in binary64 and rounded to [float]; an image is given by
    the field its sampler reads.  No statement below depends on how accurate
    these are: the kernels are stated for every implementation. *)

Module Device.

Abbreviation dbl := (FP.cvt binary64).
Abbreviation flt := (FP.cvt binary32).
Infix "+" := (FP.add binary64) : device_scope.
Infix "-" := (FP.sub binary64) : device_scope.
Infix "*" := (FP.mul binary64) : device_scope.
Infix "/" := (FP.div binary64) : device_scope.

Definition lit (n : Z) : spec_float := FP.of_Z binary64 n.
Definition pi : spec_float :=
  FP.literal binary64 314159265358979323846264338327950288
    100000000000000000000000000000000000.
Definition half_pi : spec_float := (pi / lit 2)%dev.

Definition signbit (x : spec_float) : bool :=
  match x with
  | S754_zero s | S754_infinity s | S754_finite s _ _ => s
  | S754_nan => false
  end.

(** [c0 + x * (c1 + x * (c2 + ...))]. *)
Definition horner (cs : list spec_float) (x : spec_float) : spec_float :=
  fold_right (fun c acc => (c + x * acc)%dev) FP.zero cs.

(** The coefficients [1/k0, -1/k1, 1/k2, ...]. *)
Fixpoint alternating (neg : bool) (ks : list Z) : list spec_float :=
  match ks with
  | [] => []
  | k :: ks =>
      (if neg then FP.opp (lit 1 / lit k)%dev else (lit 1 / lit k)%dev)
        :: alternating (negb neg) ks
  end.

Definition sin_coeffs : list spec_float :=
  alternating false
    [1; 6; 120; 5040; 362880; 39916800; 6227020800; 1307674368000].
Definition cos_coeffs : list spec_float :=
  alternating false
    [1; 2; 24; 720; 40320; 3628800; 479001600; 87178291200;
     20922789888000].
Definition atan_coeffs : list spec_float :=
  alternating false [1; 3; 5; 7; 9; 11; 13; 15; 17; 19].

(** Sine and cosine for [|y| <= pi/4]. *)
Definition sin_kernel (y : spec_float) : spec_float :=
  (y * horner sin_coeffs (y * y))%dev.
Definition cos_kernel (y : spec_float) : spec_float :=
  horner cos_coeffs (y * y)%dev.

(** [x = n * pi/2 + y] with [|y| <= pi/4]. *)
Definition reduce (x : spec_float) : option (Z * spec_float) :=
  match FP.floor (x / half_pi + lit 1 / lit 2)%dev with
  | Some n => Some (n mod 4, (x - lit n * half_pi)%dev)
  | None => None
  end.

Definition sin (x : spec_float) : spec_float :=
  if FP.is_zero x then x
  else match reduce (dbl x) with
       | Some (0, y) => flt (sin_kernel y)
       | Some (1, y) => flt (cos_kernel y)
       | Some (2, y) => flt (FP.opp (sin_kernel y))
       | Some (_, y) => flt (FP.opp (cos_kernel y))
       | None => S754_nan
       end.

Definition cos (x : spec_float) : spec_float :=
  match reduce (dbl x) with
  | Some (0, y) => flt (cos_kernel y)
  | Some (1, y) => flt (FP.opp (sin_kernel y))
  | Some (2, y) => flt (FP.opp (cos_kernel y))
  | Some (_, y) => flt (sin_kernel y)
  | None => S754_nan
  end.

(** Arc tangent on [0, 1]: two halvings of the angle, then the series. *)
Definition halve (t : spec_float) : spec_float :=
  (t / (lit 1 + FP.sqrt binary64 (lit 1 + t * t)))%dev.
Definition atan01 (t : spec_float) : spec_float :=
  let u := halve (halve t) in
  (lit 4 * (u * horner atan_coeffs (u * u)))%dev.

(** The angle of the point [(|x|, |y|)], in [0, pi/2]. *)
Definition quadrant_angle (ax ay : spec_float) : spec_float :=
  match ax, ay with
  | S754_nan, _ | _, S754_nan => S754_nan
  | S754_zero _, S754_zero _ => FP.zero
  | S754_infinity _, S754_infinity _ => (half_pi / lit 2)%dev
  | _, _ =>
      if FP.leb ay ax then atan01 (ay / ax)%dev
      else (half_pi - atan01 (ax / ay))%dev
  end.

Definition atan2_double (y x : spec_float) : spec_float :=
  let t := quadrant_angle (SFabs x) (SFabs y) in
  let t := if signbit x then (pi - t)%dev else t in
  if signbit y then FP.opp t else t.

Definition atan2 (y x : spec_float) : spec_float :=
  flt (atan2_double (dbl y) (dbl x)).

Definition acos (x : spec_float) : spec_float :=
  let x := dbl x in
  if FP.leb (SFabs x) (lit 1) then
    flt (atan2_double (FP.sqrt binary64 ((lit 1 - x) * (lit 1 + x))%dev) x)
  else S754_nan.

Definition vlength (p : float2) : spec_float :=
  let x := dbl (f2x p) in
  let y := dbl (f2y p) in
  flt (FP.sqrt binary64 (x * x + y * y)%dev).

(** An image, as the sampler sees it: the colour at every coordinate. *)
Definition image2d_t : Type := float2 -> float4.
Definition read_imagef (img : image2d_t) (coords : float2) : float4 :=
  img coords.

End Device.

(** ** Sample inputs *)

Module Sample.

(** The [float] nearest to [n / d]. *)
Definition f32 (n d : positive) : spec_float := FP.literal binary32 n d.

Definition one : spec_float := FP.of_Z binary32 1.
Definition half : spec_float := f32 1 2.

(** A table of three rays: two escape, one is captured. *)
Definition angles3 : list spec_float := [f32 1 4; half; one].
Definition outcomes3 : list Z := [1; 1; 0].

(** A table of two escaping rays, the second with an angle that is NaN. *)
Definition angles_nan : list spec_float := [one; S754_nan].
Definition outcomes_nan : list Z := [1; 1].

(** Distances and screen coordinates. *)
Definition r21 : spec_float := FP.of_Z binary32 21.
Definition r31 : spec_float := FP.of_Z binary32 31.

(** The widest aim, about 90.53, of a fan of four rays from [r = 31]
    whose inner rays pass next to the edge of the shadow of the hole. *)
Definition max_edge : spec_float := S754_finite false 11866257 (-17).

(** The aim, about 30.18, of the inner rays of that fan: the widest of the
    aims from [r = 31] that end in the hole. *)
Definition aim_edge : spec_float := S754_finite false 15821674 (-19).

(** A camera just inside the far limit, and a wide aim. *)
Definition r499 : spec_float := FP.of_Z binary32 499.
Definition hundred : spec_float := FP.of_Z binary32 100.
Definition cy600 : spec_float := FP.of_Z binary32 600.

(** A table of eight rays that escape undeflected. *)
Definition angles8 : list spec_float := repeat FP.zero 8.
Definition outcomes8 : list Z := repeat 1 8.

(** A texture of one colour, given as (red, green, blue, alpha). *)
Definition flat (red green blue alpha : spec_float) : Device.image2d_t :=
  fun _ => Float4 red green blue alpha.

(** A texture that is red above the parallel [y = 3/4] and a dim
    blue-green below it. *)
Definition two_tone (alpha : spec_float) : Device.image2d_t :=
  fun coords =>
    if FP.ltb (f2y coords) (f32 3 4)
    then Float4 one FP.zero FP.zero alpha
    else Float4 FP.zero half (f32 1 4) alpha.

(** A frame of 2 by 2 pixels, black. *)
Definition frame : list Pixel := repeat (mkPixel 0 0 0 0) 4.

End Sample.

Section Kernels.

(** The format of unsuffixed literals and of [M_PI]. *)
Variable lit : FP.format.

(** The built-in functions of OpenCL C the kernels call. *)
Variables sin cos acos : spec_float -> spec_float.
Variable atan2 : spec_float -> spec_float -> spec_float.
Variable vlength : float2 -> spec_float.
Variable image2d_t : Type.
Variable read_imagef : image2d_t -> float2 -> float4.

Abbreviation F := (FP.cvt binary32).
Abbreviation D := (FP.cvt lit).
Notation "- x" := (FP.opp x) : float_scope.
Notation "- x" := (FP.opp x) : double_scope.
Infix "+" := (FP.add binary32) : float_scope.
Infix "-" := (FP.sub binary32) : float_scope.
Infix "*" := (FP.mul binary32) : float_scope.
Infix "/" := (FP.div binary32) : float_scope.
Infix "+" := (FP.add lit) : double_scope.
Infix "-" := (FP.sub lit) : double_scope.
Infix "*" := (FP.mul lit) : double_scope.
Infix "/" := (FP.div lit) : double_scope.

(** The literals of the two files, in the format [lit]. *)
Definition c_0 : spec_float := FP.zero.
Definition c_1 : spec_float := FP.of_Z lit 1.
Definition c_2 : spec_float := FP.of_Z lit 2.
Definition c_3 : spec_float := FP.of_Z lit 3.
Definition c_5 : spec_float := FP.of_Z lit 5.
Definition c_10 : spec_float := FP.of_Z lit 10.
Definition c_200 : spec_float := FP.of_Z lit 200.
Definition c_255 : spec_float := FP.of_Z lit 255.
Definition c_500 : spec_float := FP.of_Z lit 500.
Definition c_600 : spec_float := FP.of_Z lit 600.
Definition c_0_01 : spec_float := FP.literal lit 1 100.
Definition c_0_0001 : spec_float := FP.literal lit 1 10000.
Definition M_PI : spec_float :=
  FP.literal lit 314159265358979323846264338327950288
    100000000000000000000000000000000000.

(** *** rays.ocl.c *)

Definition GM : spec_float := F c_10.

(** Note: we could have used this during the iteration step instead of
    calling [null_dt] each time. *)
Definition d2t (r dt dr : spec_float) : spec_float :=
  F ((- c_2) * D GM / (D r * (D r - c_2 * D GM)) * D dr * D dt)%d.

(** Second derivative of r. *)
Definition d2r (r dt dr dtheta : spec_float) : spec_float :=
  F (D (- GM / (r * r * r))%f * (D r - c_2 * D GM) * D dt * D dt
     + D GM / (D r * (D r - c_2 * D GM)) * D dr * D dr
     + (D r - c_2 * D GM) * D dtheta * D dtheta)%d.

(** Second derivative of theta. *)
Definition d2theta (r dr dtheta : spec_float) : spec_float :=
  F ((- c_2) / D r * D dtheta * D dr)%d.

(** Given r, dr, and dtheta, the value for dt that makes this a null
    path. *)
Definition null_dt (r dr dtheta : spec_float) : spec_float :=
  let q := F (c_1 - c_2 * D GM / D r)%d in
  FP.sqrt binary32 ((dr * dr / (q * q)) + r * r * dtheta * dtheta / q)%f.

Definition NUM_ITER : Z := 1000000.
Definition TS : spec_float := F c_0_01.

(** The fudge factor of [gen_outcomes]: [2 * GM + 0.0001]. *)
Definition min_r : spec_float :=
  F (D (FP.of_Z binary32 2 * GM)%f + c_0_0001)%d.

(** One pass through the body of the [for] loop, up to the two tests. *)
Definition step (s : ray) : ray :=
  let '(Ray r theta dr dtheta) := s in
  let dt := null_dt r dr dtheta in
  let ddr := d2r r dt dr dtheta in
  let ddtheta := d2theta r dr dtheta in
  let dr := (dr + TS * ddr)%f in
  let dtheta := (dtheta + TS * ddtheta)%f in
  let r := (r + TS * dr)%f in
  let theta := (theta + TS * dtheta)%f in
  Ray r theta dr dtheta.

(** The two tests after a step: [r <= min_r] and [r > 500.]. *)
Definition fallen (s : ray) : bool := FP.leb (ray_r s) min_r.
Definition far (s : ray) : bool := FP.ltb c_500 (D (ray_r s)).

(** The [for] loop with [n] iterations left; the result is the state after
    the loop and the flag [hit]. *)
Fixpoint loop (n : nat) (s : ray) : ray * bool :=
  match n with
  | O => (s, false)
  | S n' =>
      let s := step s in
      if fallen s then (s, true)
      else if far s then (s, false)
      else loop n' s
  end.

(** The state of the ray of work-item [slot] before the loop. *)
Definition ray_amt (min max : spec_float) (num slot : Z) : spec_float :=
  let i := FP.of_Z binary32 slot in
  let frac := (i / FP.of_Z binary32 (Int.sub num 1))%f in
  F (D (max * frac)%f + D min * (c_1 - D frac))%d.

Definition initial (min max : spec_float) (num : Z) (start_r : spec_float)
    (slot : Z) : ray :=
  let dx := ray_amt min max num slot in
  let dz := F c_1 in
  let r := start_r in
  let theta := F M_PI in
  let dr := (- start_r * dz / r)%f in
  let dtheta := (- start_r * dx / (r * r))%f in
  Ray r theta dr dtheta.

(** What the kernel records for a ray after the loop. *)
Definition record (s : ray) (hit : bool) : res_t :=
  let '(Ray r theta dr dtheta) := s in
  if hit then
    mkRes (F (M_PI / c_2 - D theta)%d) 0
  else
    let dx := (r * cos theta * dtheta + sin theta * dr)%f in
    let dz := (- r * sin theta * dtheta + cos theta * dr)%f in
    mkRes (atan2 dz dx) 1.

(** The angle and outcome of work-item [gid0]. *)
Definition ray_outcome (min max : spec_float) (num : Z)
    (start_r : spec_float) (slot : Z) : res_t :=
  let '(s, hit) :=
    loop (Z.to_nat NUM_ITER) (initial min max num start_r slot) in
  record s hit.

(** The kernel [gen_outcomes], for the work-item whose global id is
    [gid0]; it returns the two arrays after its writes. *)
Definition gen_outcomes (angles : list spec_float) (outcomes : list Z)
    (min max : spec_float) (num : Z) (start_r : spec_float) (gid0 : Z)
    : option (list spec_float * list Z) :=
  let slot := Int.wrap_int gid0 in
  let res := ray_outcome min max num start_r slot in
  match store outcomes slot (outcome res) with
  | Some outcomes' =>
      match store angles slot (angle res) with
      | Some angles' => Some (angles', outcomes')
      | None => None
      end
  | None => None
  end.

(** *** render.ocl.c *)

(** The sampler [sampler_const] (normalized coordinates, repeat
    addressing, linear filter) is part of [read_imagef]. *)
Definition pixel_from_img (img : image2d_t) (coords : float2) : Pixel :=
  let t := read_imagef img coords in
  let k := F c_255 in
  let vals :=
    Float4 (f4x t * k)%f (f4y t * k)%f (f4z t * k)%f (f4w t * k)%f in
  mkPixel (FP.to_uchar (f4w vals)) (FP.to_uchar (f4x vals))
          (FP.to_uchar (f4y vals)) (FP.to_uchar (f4z vals)).

Definition max_r : spec_float := F c_5.

Definition lookup (angles : list spec_float) (angle_results : list Z)
    (pos : spec_float) : option res_t :=
  posi ← FP.to_int pos;
  let f := (pos - FP.of_Z binary32 posi)%f in
  o ← load angle_results posi;
  o1 ← load angle_results (Int.add posi 1);
  if negb (o =? o1) then
    a0 ← load angles posi;
    Some (mkRes a0 o)
  else
    a0 ← load angles posi;
    a1 ← load angles (Int.add posi 1);
    Some (mkRes (F ((c_1 - D f) * D a0 + D (f * a1)%f)%d) o).

(** [for (int i = 0; i < n; i++) body], threading the state [s]; [fuel] is
    the number of iterations left and [i] the counter. *)
Fixpoint for_loop {S : Type} (fuel : nat) (i : Z)
    (body : Z -> S -> option S) (s : S) : option S :=
  match fuel with
  | O => Some s
  | Datatypes.S fuel' => s' ← body i s; for_loop fuel' (i + 1) body s'
  end.

(** The three accumulators [res_r], [res_g], [res_b]. *)
Record acc := Acc { res_r : Z; res_g : Z; res_b : Z }.

Section Schwarz.
Variables (angles : list spec_float) (angle_results : list Z).
Variables (x_res y_res pitch : Z) (cx cy : spec_float).
Variables (skytex spheretex : image2d_t) (aa num_outcomes : Z).
Variables (gid0 gid1 : Z).

(** The point of the screen of supersample [(aa_x, aa_y)]. *)
Definition sample_point (aa_x aa_y : Z) : float2 :=
  let x := FP.of_Z binary32 gid0 in
  let y := FP.of_Z binary32 gid1 in
  let x := (x + FP.of_Z binary32 aa_x / FP.of_Z binary32 aa)%f in
  let y := (y + FP.of_Z binary32 aa_y / FP.of_Z binary32 aa)%f in
  Float2
    (F ((D x - D (FP.of_Z binary32 x_res) / c_2)
        / D (FP.of_Z binary32 (x_res / 2)))%d)
    (F ((D y - D (FP.of_Z binary32 y_res) / c_2)
        / D (FP.of_Z binary32 (x_res / 2)))%d).

(** The position in the table the supersample at [p] is looked up at. *)
Definition table_pos (p : float2) : spec_float :=
  let r := F (D (vlength p) * c_3)%d in
  (r * FP.of_Z binary32 num_outcomes / max_r)%f.

(** The texture coordinates of the ray through [p] that leaves at
    [angle_out]. *)
Definition direction (p : float2) (angle_out : spec_float) : float2 :=
  let pixel_angle := atan2 (f2y p) (f2x p) in
  let loc_rect := Float3 (cos angle_out) (sin angle_out) (F c_0) in
  let loc_rect :=
    Float3 (cos pixel_angle * f3x loc_rect + sin pixel_angle * f3z loc_rect)%f
           (f3y loc_rect)
           (- sin pixel_angle * f3x loc_rect + cos pixel_angle * f3z loc_rect)%f in
  let x_angle := F (D cx / c_200)%d in
  let y_angle := F ((D cy - c_600) / c_200)%d in
  let loc_rect :=
    Float3 (f3x loc_rect)
           (cos y_angle * f3y loc_rect + sin y_angle * f3z loc_rect)%f
           (- sin y_angle * f3y loc_rect + cos y_angle * f3z loc_rect)%f in
  let loc_rect :=
    Float3 (cos x_angle * f3x loc_rect + sin x_angle * f3y loc_rect)%f
           (- sin x_angle * f3x loc_rect + cos x_angle * f3y loc_rect)%f
           (f3z loc_rect) in
  let phi := F (D (acos (f3z loc_rect)) / M_PI)%d in
  let theta :=
    F ((D (atan2 (f3y loc_rect) (f3x loc_rect)) + M_PI) / (c_2 * M_PI))%d in
  Float2 theta phi.

(** The texture sample of supersample [(aa_x, aa_y)]. *)
Definition supersample (aa_x aa_y : Z) : option Pixel :=
  let p := sample_point aa_x aa_y in
  lookup_res ← lookup angles angle_results (table_pos p);
  let angle_out := angle lookup_res in
  let res := outcome lookup_res in
  let '(Float2 theta phi) := direction p angle_out in
  if res =? 0 then
    Some (pixel_from_img spheretex (Float2 theta phi))
  else
    Some (pixel_from_img skytex (Float2 (- theta)%f phi)).

(** The body of the inner loop. *)
Definition accumulate (aa_x aa_y : Z) (s : acc) : option acc :=
  pixel ← supersample aa_x aa_y;
  Some (Acc (Int.add (res_r s) (r pixel))
            (Int.add (res_g s) (g pixel))
            (Int.add (res_b s) (b pixel))).

(** The two nested loops, from the accumulators [s]. *)
Definition aa_loops (s : acc) : option acc :=
  for_loop (Z.to_nat aa) 0
    (fun aa_x s => for_loop (Z.to_nat aa) 0 (accumulate aa_x) s) s.

(** The pixel the work-item computes. *)
Definition final_pixel : option Pixel :=
  s ← aa_loops (Acc 0 0 0);
  res_r ← Int.div (res_r s) (Int.mul aa aa);
  res_g ← Int.div (res_g s) (Int.mul aa aa);
  res_b ← Int.div (res_b s) (Int.mul aa aa);
  Some (mkPixel (Int.wrap_uchar res_b) (Int.wrap_uchar res_g)
                (Int.wrap_uchar res_r) (Int.wrap_uchar 0)).

(** The kernel [schwarz], for the work-item with global id
    [(gid0, gid1)]; it returns the buffer after its write. *)
Definition schwarz (buffer : list Pixel) : option (list Pixel) :=
  let pixel_loc := Int.wrap_int (gid0 + gid1 * pitch) in
  px ← final_pixel;
  store buffer pixel_loc px.
End Schwarz.

(** ** Notions the statements use *)

(** The state after [k] passes through the loop body, and whether a state
    ends the loop. *)
Definition after (k : nat) (s : ray) : ray := Nat.iter k step s.
Definition crossed (s : ray) : bool := fallen s || far s.

(** No state passes a test in the first [n] steps from [s]. *)
Fixpoint clear_run (n : nat) (s : ray) : bool :=
  match n with
  | O => true
  | S n' => let s' := step s in negb (crossed s') && clear_run n' s'
  end.

(** [x] is a [float]; the literals are [float] or [double]. *)
Definition is_float (x : spec_float) : Prop := valid_binary 24 128 x = true.
Definition standard : Prop := lit = binary32 \/ lit = binary64.

(** [x'] is [- x], or both are zeros (of any sign). *)
Definition opposite (x x' : spec_float) : Prop :=
  x' = FP.opp x \/ (FP.is_zero x = true /\ FP.is_zero x' = true).

(** Two rays at the same [r] with the same [dr] and opposite [dtheta]. *)
Definition mirror (s s' : ray) : Prop :=
  ray_r s = ray_r s' /\ ray_dr s = ray_dr s'
  /\ opposite (ray_dtheta s) (ray_dtheta s').

(** [x] and [y] are the same number: equal, or zeros of either sign. *)
Definition same_number (x y : spec_float) : Prop :=
  x = y \/ (FP.is_zero x = true /\ FP.is_zero y = true).

(** [pos] is exactly [i + 1/2]. *)
Definition is_half_past (pos : spec_float) (i : Z) : Prop :=
  match pos with
  | S754_finite false m (Zneg p) => 2 * Zpos m = (2 * i + 1) * 2 ^ Zpos p
  | _ => False
  end.

(** Two texture samples with the same red, green and blue. *)
Definition same_rgb (t t' : float4) : Prop :=
  f4x t = f4x t' /\ f4y t = f4y t' /\ f4z t = f4z t'.

(** Two textures that differ at most in their alpha channel. *)
Definition same_colours (img img' : image2d_t) : Prop :=
  forall coords, same_rgb (read_imagef img coords) (read_imagef img' coords).

(** [f 0 + ... + f (n - 1)]. *)
Fixpoint sum_below (n : nat) (f : Z -> Z) : Z :=
  match n with
  | O => 0
  | S n' => sum_below n' f + f (Z.of_nat n')
  end.

(** The sum of channel [ch] over the [aa * aa] supersamples [smp]. *)
Definition channel_sum (aa : Z) (smp : Z -> Z -> Pixel) (ch : Pixel -> Z) : Z :=
  sum_below (Z.to_nat aa)
    (fun aa_x => sum_below (Z.to_nat aa) (fun aa_y => ch (smp aa_x aa_y))).

(** The accumulators holding the sums [R], [G], [B], reduced to [int]. *)
Definition wrapped (R G B : Z) : acc :=
  Acc (Int.wrap_int R) (Int.wrap_int G) (Int.wrap_int B).

(** A kernel run for the work-items [work], one after the other, on a
    buffer. *)
Fixpoint nd_range (work : list (Z * Z))
    (kernel : Z -> Z -> list Pixel -> option (list Pixel))
    (buffer : list Pixel) : option (list Pixel) :=
  match work with
  | [] => Some buffer
  | (gid0, gid1) :: work =>
      buffer ← kernel gid0 gid1 buffer; nd_range work kernel buffer
  end.

(** Two rays that differ at most in [theta]. *)
Definition same_orbit (s s' : ray) : Prop :=
  ray_r s = ray_r s' /\ ray_dr s = ray_dr s'
  /\ ray_dtheta s = ray_dtheta s'.

(** Work-items run one after the other on a state. *)
Fixpoint work_items {St W : Type} (kernel : W -> St -> option St)
    (work : list W) (s : St) : option St :=
  match work with
  | [] => Some s
  | w :: work => s ← kernel w s; work_items kernel work s
  end.

(** [gen_outcomes] on the pair of its two tables. *)
Definition gen_item (min max : spec_float) (num : Z) (start_r : spec_float)
    (gid0 : Z) (t : list spec_float * list Z)
    : option (list spec_float * list Z) :=
  gen_outcomes t.1 t.2 min max num start_r gid0.

(** Work-item [(gid0, gid1)] lies within a row of the buffer, and its
    position [gid0 + gid1 * pitch] is an [int]. *)
Definition in_row (pitch : Z) (w : Z * Z) : Prop :=
  0 <= w.1 < pitch /\ 0 <= w.2 /\ w.1 + w.2 * pitch <= Int.INT_MAX.

(** [x] is a zero, of either sign, or NaN. *)
Definition zero_or_nan (x : spec_float) : Prop :=
  FP.is_zero x = true \/ x = S754_nan.

(** A ray aimed at the hole: at the angle it started at with no angular
    rate, or with both lost to NaN. *)
Definition radial (s : ray) : Prop :=
  (ray_theta s = F M_PI /\ zero_or_nan (ray_dtheta s))
  \/ (ray_theta s = S754_nan /\ ray_dtheta s = S754_nan).


(** The lemmas that carry [opposite] through the operations. *)
Create HintDb opposite.

(** ** Facts about the arithmetic *)

Lemma wrap_int_small z :
  Int.INT_MIN <= z <= Int.INT_MAX -> Int.wrap_int z = z.
Proof.
  unfold Int.INT_MIN, Int.INT_MAX, Int.wrap_int. intros H.
  rewrite Z.mod_small; lia.
Qed.

Lemma wrap_int_add z w :
  Int.wrap_int (Int.wrap_int z + w) = Int.wrap_int (z + w).
Proof.
  unfold Int.wrap_int.
  replace ((z + 2 ^ 31) mod 2 ^ 32 - 2 ^ 31 + w + 2 ^ 31)
    with ((z + 2 ^ 31) mod 2 ^ 32 + w) by lia.
  rewrite Zplus_mod_idemp_l. f_equal. f_equal. lia.
Qed.

Lemma wrap_uchar_small z : 0 <= z < 256 -> Int.wrap_uchar z = z.
Proof. intros H. unfold Int.wrap_uchar. apply Z.mod_small, H. Qed.

Lemma to_uchar_range x : 0 <= FP.to_uchar x < 256.
Proof.
  unfold FP.to_uchar, Int.wrap_uchar.
  destruct (FP.trunc x); [apply Z.mod_pos_bound|]; lia.
Qed.

(** Rounding is symmetric about zero. *)
Lemma binary_round_aux_opp p e s m ex l :
  binary_round_aux p e (negb s) m ex l = SFopp (binary_round_aux p e s m ex l).
Proof.
  unfold binary_round_aux.
  destruct (shr_fexp p e m ex l) as [mrs e'].
  destruct (shr_fexp p e _ e' loc_Exact) as [mrs' e''].
  destruct (shr_m mrs'); simpl; try reflexivity.
  destruct (e'' <=? e - p); reflexivity.
Qed.

Lemma binary_round_opp p e s m ex :
  binary_round p e (negb s) m ex = SFopp (binary_round p e s m ex).
Proof.
  unfold binary_round. destruct (shl_align _ _ _). apply binary_round_aux_opp.
Qed.

Lemma binary_normalize_opp p e z ex :
  z <> 0 ->
  binary_normalize p e (- z) ex false = SFopp (binary_normalize p e z ex false).
Proof.
  destruct z; simpl; intros; try congruence.
  - apply (binary_round_opp p e false).
  - apply (binary_round_opp p e true).
Qed.

Lemma cvt_opp f x : FP.cvt f (FP.opp x) = FP.opp (FP.cvt f x).
Proof. destruct x; simpl; try reflexivity. apply binary_round_opp. Qed.

Lemma mul_opp_l f x y : FP.mul f (FP.opp x) y = FP.opp (FP.mul f x y).
Proof.
  unfold FP.mul, FP.opp.
  destruct x as [sx|sx| |sx mx ex], y as [sy|sy| |sy my ey]; simpl;
    try reflexivity; try (destruct sx, sy; reflexivity).
  rewrite <- binary_round_aux_opp. destruct sx, sy; reflexivity.
Qed.

Lemma mul_opp_r f x y : FP.mul f x (FP.opp y) = FP.opp (FP.mul f x y).
Proof.
  unfold FP.mul, FP.opp.
  destruct x as [sx|sx| |sx mx ex], y as [sy|sy| |sy my ey]; simpl;
    try reflexivity; try (destruct sx, sy; reflexivity).
  rewrite <- binary_round_aux_opp. destruct sx, sy; reflexivity.
Qed.

(** A result of [sqrt] is never below zero. *)
Lemma round_not_negative p e m ex l :
  FP.ltb (binary_round_aux p e false m ex l) FP.zero = false.
Proof.
  unfold binary_round_aux.
  destruct (shr_fexp p e m ex l) as [mrs e'].
  destruct (shr_fexp p e _ e' loc_Exact) as [mrs' e''].
  destruct (shr_m mrs'); try reflexivity.
  destruct (e'' <=? e - p); reflexivity.
Qed.

Lemma sqrt_not_negative f x : FP.ltb (FP.sqrt f x) FP.zero = false.
Proof.
  unfold FP.sqrt, SFsqrt. destruct x as [s|[]| |[] m ex]; try reflexivity.
  destruct (SFsqrt_core_binary _ _ _ _) as [[mz ez] lz].
  apply round_not_negative.
Qed.

(** *** The relation [opposite] through the operations *)

Lemma opposite_cvt f x x' :
  opposite x x' -> opposite (FP.cvt f x) (FP.cvt f x').
Proof.
  intros [-> | [Hx Hx']].
  - left. apply cvt_opp.
  - right. destruct x, x'; try discriminate; auto.
Qed.

Lemma opposite_mul_l f c x x' :
  opposite x x' -> opposite (FP.mul f c x) (FP.mul f c x').
Proof.
  intros [-> | [Hx Hx']].
  - left. apply mul_opp_r.
  - destruct x as [s| | |], x' as [s'| | |]; try discriminate.
    destruct c as [sc|sc| |sc mc ec]; simpl; [right|left|left|right]; auto.
Qed.

Lemma opposite_mul_r f c x x' :
  opposite x x' -> opposite (FP.mul f x c) (FP.mul f x' c).
Proof.
  intros [-> | [Hx Hx']].
  - left. apply mul_opp_l.
  - destruct x as [s| | |], x' as [s'| | |]; try discriminate.
    destruct c as [sc|sc| |sc mc ec]; simpl; [right|left|left|right]; auto.
Qed.

Lemma mul_mul_opposite f c x x' :
  opposite x x' -> FP.mul f (FP.mul f c x) x = FP.mul f (FP.mul f c x') x'.
Proof.
  intros [-> | [Hx Hx']].
  - rewrite mul_opp_r, mul_opp_r, mul_opp_l.
    destruct (FP.mul f (FP.mul f c x) x) as [[]|[]| |[] ? ?]; reflexivity.
  - destruct x as [s| | |], x' as [s'| | |]; try discriminate.
    destruct c as [sc|sc| |sc mc ec]; simpl; try reflexivity;
      destruct sc, s, s'; reflexivity.
Qed.

Lemma add_opposite f x y :
  opposite (FP.add f x y) (FP.add f (FP.opp x) (FP.opp y)).
Proof.
  unfold FP.add, FP.opp.
  destruct x as [sx|sx| |sx mx ex], y as [sy|sy| |sy my ey]; simpl;
    try (left; reflexivity);
    try (destruct sx, sy; simpl;
         (left; reflexivity) || (right; split; reflexivity)).
  set (ez := Z.min ex ey).
  set (u := cond_Zopp sx (Z.pos (shl_align mx ex ez).1)).
  set (v := cond_Zopp sy (Z.pos (shl_align my ey ez).1)).
  replace (cond_Zopp (negb sx) (Z.pos (shl_align mx ex ez).1)) with (- u)
    by (subst u; destruct sx; reflexivity).
  replace (cond_Zopp (negb sy) (Z.pos (shl_align my ey ez).1)) with (- v)
    by (subst v; destruct sy; reflexivity).
  replace (- u + - v) with (- (u + v)) by lia.
  destruct (Z.eq_dec (u + v) 0) as [E|E].
  - rewrite E. right. split; reflexivity.
  - left. apply binary_normalize_opp. exact E.
Qed.

Lemma opposite_add f x x' y y' :
  opposite x x' -> opposite y y' -> opposite (FP.add f x y) (FP.add f x' y').
Proof.
  intros [-> | [Hx Hx']] [-> | [Hy Hy']].
  - apply add_opposite.
  - destruct y as [sy| | |], y' as [sy'| | |]; try discriminate.
    destruct x as [sx|sx| |sx mx ex]; simpl; try (left; reflexivity).
    destruct sx, sy, sy'; right; split; reflexivity.
  - destruct x as [sx| | |], x' as [sx'| | |]; try discriminate.
    destruct y as [sy|sy| |sy my ey]; simpl; try (left; reflexivity).
    destruct sx, sx', sy; right; split; reflexivity.
  - destruct x as [sx| | |], x' as [sx'| | |]; try discriminate.
    destruct y as [sy| | |], y' as [sy'| | |]; try discriminate.
    destruct sx, sx', sy, sy'; right; split; reflexivity.
Qed.

#[local] Hint Resolve opposite_cvt opposite_mul_l opposite_mul_r opposite_add
  : opposite.


(** *** Values that are rounded to themselves *)

Lemma digits2_pos_iter m k :
  digits2_pos (Pos.iter xO m k) = (digits2_pos m + k)%positive.
Proof.
  induction k using Pos.peano_ind.
  - simpl. lia.
  - rewrite Pos.iter_succ. simpl. rewrite IHk. lia.
Qed.

Lemma iter_pos_shr_1 k : forall m,
  SpecFloat.iter_pos shr_1 k
    (Build_shr_record (Zpos (Pos.iter xO m k)) false false)
  = Build_shr_record (Zpos m) false false.
Proof.
  induction k as [k IH|k IH|]; intros m; simpl.
  - rewrite IH, IH. reflexivity.
  - rewrite IH, IH. reflexivity.
  - reflexivity.
Qed.

Lemma round_exact p e s m ex :
  bounded p e m ex = true ->
  binary_round_aux p e s (Zpos m) ex loc_Exact = S754_finite s m ex.
Proof.
  unfold bounded, canonical_mantissa. intros [Hc He]%andb_prop.
  apply Z.eqb_eq in Hc.
  unfold binary_round_aux, shr_fexp. simpl Zdigits2.
  rewrite Hc, Z.sub_diag. simpl.
  rewrite Hc, Z.sub_diag. simpl. rewrite He. reflexivity.
Qed.

Lemma round_scaled p e s m ex k :
  bounded p e m ex = true ->
  binary_round_aux p e s (Zpos (Pos.iter xO m k)) (ex - Zpos k) loc_Exact
  = S754_finite s m ex.
Proof.
  intros Hb. generalize Hb. unfold bounded, canonical_mantissa.
  intros [Hc He]%andb_prop. apply Z.eqb_eq in Hc.
  unfold binary_round_aux at 1. unfold shr_fexp at 1. simpl Zdigits2.
  rewrite digits2_pos_iter.
  replace (Z.pos (digits2_pos m + k) + (ex - Z.pos k))
    with (Z.pos (digits2_pos m) + ex) by lia.
  rewrite Hc. replace (ex - (ex - Z.pos k)) with (Z.pos k) by lia.
  unfold shr_record_of_loc, shr. rewrite iter_pos_shr_1.
  replace (ex - Z.pos k + Z.pos k) with ex by lia.
  simpl loc_of_shr_record. simpl round_nearest_even. simpl shr_m.
  unfold shr_fexp. simpl Zdigits2. rewrite Hc, Z.sub_diag. simpl. rewrite He.
  reflexivity.
Qed.

Lemma cvt_valid f x :
  valid_binary (FP.prec f) (FP.emax f) x = true -> FP.cvt f x = x.
Proof.
  destruct x as [| | |s m ex]; simpl; try reflexivity. intros Hb.
  generalize Hb. unfold bounded, canonical_mantissa. intros [Hc He]%andb_prop.
  apply Z.eqb_eq in Hc.
  unfold binary_round. rewrite Hc. unfold shl_align. rewrite Z.sub_diag.
  apply round_exact, Hb.
Qed.

(** A [float] promoted to [double] keeps its value ... *)
Lemma cvt_widen s m ex :
  bounded 24 128 m ex = true ->
  exists j, FP.cvt binary64 (S754_finite s m ex)
            = S754_finite s (Pos.iter xO m j) (ex - Zpos j)
         /\ bounded 53 1024 (Pos.iter xO m j) (ex - Zpos j) = true.
Proof.
  unfold bounded at 1, canonical_mantissa. intros [Hc He]%andb_prop.
  apply Z.eqb_eq in Hc. apply Z.leb_le in He.
  unfold fexp, emin in Hc.
  unfold FP.cvt, binary_round. simpl FP.prec. simpl FP.emax.
  set (e64 := fexp 53 1024 (Z.pos (digits2_pos m) + ex)).
  assert (H64 : e64 = Z.max (Z.pos (digits2_pos m) + ex - 53) (3 - 1024 - 53))
    by reflexivity.
  unfold shl_align. destruct (e64 - ex) as [|d|d] eqn:Hd; try lia.
  exists d.
  assert (Hb : bounded 53 1024 (Pos.iter xO m d) e64 = true).
  { unfold bounded, canonical_mantissa. rewrite digits2_pos_iter.
    apply andb_true_intro. split.
    - apply Z.eqb_eq. unfold fexp, emin. lia.
    - apply Z.leb_le. lia. }
  replace (ex - Z.pos d) with e64 by lia.
  split; [apply round_exact, Hb | exact Hb].
Qed.

(** ... and is found again when the [double] is rounded to [float]. *)
Lemma cvt_narrow s m ex j :
  bounded 24 128 m ex = true ->
  FP.cvt binary32 (S754_finite s (Pos.iter xO m j) (ex - Zpos j))
  = S754_finite s m ex.
Proof.
  intros Hb. generalize Hb. unfold bounded, canonical_mantissa.
  intros [Hc He]%andb_prop. apply Z.eqb_eq in Hc.
  unfold FP.cvt, binary_round. simpl FP.prec. simpl FP.emax.
  rewrite digits2_pos_iter.
  replace (Z.pos (digits2_pos m + j) + (ex - Z.pos j))
    with (Z.pos (digits2_pos m) + ex) by lia.
  rewrite Hc. unfold shl_align.
  replace (ex - (ex - Z.pos j)) with (Z.pos j) by lia.
  apply round_scaled, Hb.
Qed.

Lemma round_trip f x :
  f = binary32 \/ f = binary64 -> is_float x ->
  FP.cvt binary32 (FP.cvt f x) = x
  /\ valid_binary (FP.prec f) (FP.emax f) (FP.cvt f x) = true.
Proof.
  unfold is_float. intros [-> | ->] Hv.
  - rewrite (cvt_valid binary32 x Hv), (cvt_valid binary32 x Hv). auto.
  - destruct x as [| | |s m ex]; simpl in Hv |- *; auto.
    destruct (cvt_widen s m ex Hv) as (j & Hj & Hb).
    simpl in Hj. rewrite Hj. split; [apply cvt_narrow, Hv | exact Hb].
Qed.

Lemma mul_one f x :
  f = binary32 \/ f = binary64 ->
  valid_binary (FP.prec f) (FP.emax f) x = true ->
  FP.mul f (FP.of_Z f 1) x = x.
Proof.
  intros [-> | ->] Hv; destruct x as [sx|sx| |sx m ex]; try reflexivity.
  - change (FP.mul binary32 (FP.of_Z binary32 1) (S754_finite sx m ex))
      with (binary_round_aux 24 128 sx (Zpos (Pos.iter xO m 23)) (-23 + ex)
              loc_Exact).
    replace (-23 + ex) with (ex - 23) by lia. apply round_scaled, Hv.
  - change (FP.mul binary64 (FP.of_Z binary64 1) (S754_finite sx m ex))
      with (binary_round_aux 53 1024 sx (Zpos (Pos.iter xO m 52)) (-52 + ex)
              loc_Exact).
    replace (-52 + ex) with (ex - 52) by lia. apply round_scaled, Hv.
Qed.

(** *** Rounding to an integer *)

Lemma floor_trunc x z :
  FP.floor x = Some z -> 0 <= z -> FP.trunc x = Some z.
Proof.
  destruct x as [s|s| |[] m ex]; simpl; try congruence.
  intros [= <-] Hz. exfalso. revert Hz. unfold FP.scale_down.
  destruct ex as [|p|p]; simpl.
  - lia.
  - assert (0 < 2 ^ Z.pos p) by (apply Z.pow_pos_nonneg; lia). nia.
  - assert (0 < 2 ^ Z.pos p) by (apply Z.pow_pos_nonneg; lia).
    intros Hz. assert (Z.neg m / 2 ^ Z.pos p < 0); [|lia].
    apply Z.div_lt_upper_bound; lia.
Qed.

Lemma floor_half_past pos i : is_half_past pos i -> FP.floor pos = Some i.
Proof.
  destruct pos as [| | |[] m [|p|p]]; simpl; try tauto.
  intros H. f_equal.
  assert (Hp : 2 ^ Z.pos p = 2 * 2 ^ (Z.pos p - 1)).
  { rewrite <- Z.pow_succ_r by lia. f_equal. lia. }
  assert (0 < 2 ^ (Z.pos p - 1)) by (apply Z.pow_pos_nonneg; lia).
  rewrite Hp in H |- *.
  replace (Z.pos m) with ((2 * i + 1) * 2 ^ (Z.pos p - 1)) by lia.
  rewrite Z.div_mul_cancel_r by lia.
  symmetry. apply (Z.div_unique _ _ i 1); lia.
Qed.

(** ** The integrator *)

Lemma after_succ k s : after (S k) s = after k (step s).
Proof. unfold after. apply Nat.iter_succ_r. Qed.

Lemma loop_unfold n s :
  loop (S n) s =
  if fallen (step s) then (step s, true)
  else if far (step s) then (step s, false)
  else loop n (step s).
Proof. reflexivity. Qed.

Lemma loop_captured n : forall s k,
  (k < n)%nat ->
  (forall j, (j < k)%nat -> crossed (after (S j) s) = false) ->
  fallen (after (S k) s) = true ->
  loop n s = (after (S k) s, true).
Proof.
  induction n as [|n IH]; intros s k Hk Hbefore Hfall; [lia|].
  rewrite loop_unfold. destruct k as [|k].
  - change (after 1 s) with (step s) in Hfall. rewrite Hfall. reflexivity.
  - pose proof (Hbefore O ltac:(lia)) as H0.
    change (after 1 s) with (step s) in H0.
    apply orb_false_elim in H0 as [-> ->].
    rewrite after_succ. apply IH; [lia| |rewrite <- after_succ; exact Hfall].
    intros j Hj. rewrite <- after_succ. apply Hbefore. lia.
Qed.

Lemma loop_escaped n : forall s k,
  (k < n)%nat ->
  (forall j, (j < k)%nat -> crossed (after (S j) s) = false) ->
  fallen (after (S k) s) = false ->
  far (after (S k) s) = true ->
  loop n s = (after (S k) s, false).
Proof.
  induction n as [|n IH]; intros s k Hk Hbefore Hfall Hfar; [lia|].
  rewrite loop_unfold. destruct k as [|k].
  - change (after 1 s) with (step s) in Hfall, Hfar.
    rewrite Hfall, Hfar. reflexivity.
  - pose proof (Hbefore O ltac:(lia)) as H0.
    change (after 1 s) with (step s) in H0.
    apply orb_false_elim in H0 as [-> ->].
    rewrite after_succ.
    apply IH; [lia| |rewrite <- after_succ; assumption..].
    intros j Hj. rewrite <- after_succ. apply Hbefore. lia.
Qed.

Lemma loop_exhausted n : forall s,
  (forall j, (j < n)%nat -> crossed (after (S j) s) = false) ->
  loop n s = (after n s, false).
Proof.
  induction n as [|n IH]; intros s Hnone; [reflexivity|].
  rewrite loop_unfold.
  pose proof (Hnone O ltac:(lia)) as H0.
  change (after 1 s) with (step s) in H0.
  apply orb_false_elim in H0 as [-> ->].
  rewrite after_succ. apply IH.
  intros j Hj. rewrite <- after_succ. apply Hnone. lia.
Qed.

Lemma clear_run_spec n : forall s,
  clear_run n s = true ->
  forall j, (j < n)%nat -> crossed (after (S j) s) = false.
Proof.
  induction n as [|n IH]; intros s H j Hj; [lia|].
  simpl in H. apply andb_prop in H as [H0 H].
  apply negb_true_iff in H0. destruct j as [|j]; [exact H0|].
  rewrite after_succ. apply IH; [exact H | lia].
Qed.

Lemma store_in_range {A} (arr : list A) i v :
  0 <= i < Z.of_nat (length arr) ->
  store arr i v = Some (<[Z.to_nat i := v]> arr).
Proof.
  intros H. unfold store.
  destruct (Z.leb_spec 0 i); [|lia]. destruct (Z.ltb_spec i (Z.of_nat (length arr))); [|lia].
  reflexivity.
Qed.

(** C2: the work-item of slot [gid0] writes one angle and one outcome.  The
    loop runs at most 1000000 times and tests, after every step, first
    [r <= min_r], where [min_r] is [2 * GM + 0.0001] (the [float] 20.0001),
    and then [r > 500.].  If the first state that passes a test passes the
    first, the outcome is 0 and the angle is [M_PI/2. - theta] of that
    state; if it passes the second, the outcome is 1 and the angle is
    [atan2(dz, dx)] of that state; if no state passes a test in 1000000
    steps, the outcome is 1 and the angle is [atan2(dz, dx)] of the last
    state. *)
Theorem gen_outcomes_outcome (angles : list spec_float) (outcomes : list Z)
    (min max : spec_float) (num : Z) (start_r : spec_float) (gid0 : Z) :
  0 <= gid0 < Z.of_nat (length angles) ->
  length outcomes = length angles ->
  Z.of_nat (length angles) <= Int.INT_MAX ->
  let s0 := initial min max num start_r gid0 in
  let budget := 1000000 in
  let threshold :=
    F (D (FP.of_Z binary32 2 * F (FP.of_Z lit 10))%f
       + FP.literal lit 1 10000)%d in
  let pi :=
    FP.literal lit 314159265358979323846264338327950288
      100000000000000000000000000000000000 in
  let inside (k : nat) := FP.leb (ray_r (after k s0)) threshold in
  let outside (k : nat) :=
    FP.ltb (FP.of_Z lit 500) (D (ray_r (after k s0))) in
  let clear (k : nat) :=
    forall j, (j < k)%nat -> inside (S j) = false /\ outside (S j) = false in
  let captured_angle (s : ray) :=
    F (pi / FP.of_Z lit 2 - D (ray_theta s))%d in
  let escaped_angle (s : ray) :=
    let '(Ray r theta dr dtheta) := s in
    let dx := (r * cos theta * dtheta + sin theta * dr)%f in
    let dz := (- r * sin theta * dtheta + cos theta * dr)%f in
    atan2 dz dx in
  (standard ->
   threshold = S754_finite false 10485812 (-19)
   /\ F (FP.of_Z lit 500) = S754_finite false 16384000 (-15))
  /\ exists res : res_t,
       gen_outcomes angles outcomes min max num start_r gid0
       = Some (<[Z.to_nat gid0 := angle res]> angles,
               <[Z.to_nat gid0 := outcome res]> outcomes)
       /\ (forall k, Z.of_nat k < budget -> clear k ->
           inside (S k) = true ->
           outcome res = 0
           /\ angle res = captured_angle (after (S k) s0))
       /\ (forall k, Z.of_nat k < budget -> clear k ->
           inside (S k) = false -> outside (S k) = true ->
           outcome res = 1
           /\ angle res = escaped_angle (after (S k) s0))
       /\ (clear (Z.to_nat budget) ->
           outcome res = 1
           /\ angle res = escaped_angle (after (Z.to_nat budget) s0)).
Proof.
  intros Hgid Hlen Hmax s0 budget threshold pi inside outside clear
    captured_angle escaped_angle.
  split.
  { unfold threshold. intros [E | E]; rewrite E; split; vm_compute;
      reflexivity. }
  assert (Hin : forall k, inside k = fallen (after k s0)) by reflexivity.
  assert (Hout : forall k, outside k = far (after k s0)) by reflexivity.
  assert (Hclear : forall k, clear k ->
    forall j, (j < k)%nat -> crossed (after (S j) s0) = false).
  { intros k Hk j Hj. destruct (Hk j Hj) as [H1 H2].
    unfold crossed. rewrite <- Hin, <- Hout, H1, H2. reflexivity. }
  assert (Hbudget : Z.to_nat NUM_ITER = Z.to_nat budget) by reflexivity.
  assert (Hslot : Int.wrap_int gid0 = gid0).
  { apply wrap_int_small. int_range. }
  exists (ray_outcome min max num start_r gid0).
  unfold gen_outcomes. rewrite Hslot.
  rewrite store_in_range by (rewrite Hlen; exact Hgid).
  rewrite store_in_range by exact Hgid.
  split; [reflexivity|].
  unfold ray_outcome. fold s0. rewrite Hbudget.
  split; [|split].
  - intros k Hk Hbefore Hfall. rewrite Hin in Hfall.
    rewrite (loop_captured (Z.to_nat budget) s0 k ltac:(unfold budget; lia)
               (Hclear k Hbefore) Hfall).
    unfold captured_angle. destruct (after (S k) s0). split; reflexivity.
  - intros k Hk Hbefore Hfall Hfar. rewrite Hin in Hfall. rewrite Hout in Hfar.
    rewrite (loop_escaped (Z.to_nat budget) s0 k ltac:(unfold budget; lia)
               (Hclear k Hbefore) Hfall Hfar).
    unfold escaped_angle. destruct (after (S k) s0). split; reflexivity.
  - intros Hnone.
    rewrite (loop_exhausted (Z.to_nat budget) s0 (Hclear _ Hnone)).
    unfold escaped_angle. destruct (after (Z.to_nat budget) s0).
    split; reflexivity.
Qed.

(** C3: one pass through the loop body, in the order of the source, with
    [GM = 10.] and [TS = 0.01].  (1) [dt] is computed from the null
    condition, [sqrt(dr * dr / (q * q) + r * r * dtheta * dtheta / q)] with
    [q = 1. - 2. * GM / r], a root that is not negative.  (2) The second
    derivatives are
    [- GM / (r * r * r) * (r - 2. * GM) * dt * dt
     + GM / (r * (r - 2. * GM)) * dr * dr + (r - 2. * GM) * dtheta * dtheta]
    for [r] and [- 2. / r * dtheta * dr] for [theta], and the rates become
    [dr + TS * ddr] and [dtheta + TS * ddtheta].  (3) The positions become
    [r + TS * dr] and [theta + TS * dtheta] with the rates just computed.
    Every iteration of the loop is such a pass, followed by the tests
    [r <= min_r] and [r > 500.] on the new [r]. *)
Theorem step_order (s : ray) :
  let '(Ray r theta dr dtheta) := s in
  let gm := F (FP.of_Z lit 10) in
  let one := FP.of_Z lit 1 in
  let two := FP.of_Z lit 2 in
  let ts := F (FP.literal lit 1 100) in
  let q := F (one - two * D gm / D r)%d in
  let dt :=
    FP.sqrt binary32 ((dr * dr / (q * q)) + r * r * dtheta * dtheta / q)%f in
  let ddr :=
    F (D (- gm / (r * r * r))%f * (D r - two * D gm) * D dt * D dt
       + D gm / (D r * (D r - two * D gm)) * D dr * D dr
       + (D r - two * D gm) * D dtheta * D dtheta)%d in
  let ddtheta := F ((- two) / D r * D dtheta * D dr)%d in
  let dr' := (dr + ts * ddr)%f in
  let dtheta' := (dtheta + ts * ddtheta)%f in
  let r' := (r + ts * dr')%f in
  let theta' := (theta + ts * dtheta')%f in
  let s' := Ray r' theta' dr' dtheta' in
  let min_r' :=
    F (D (FP.of_Z binary32 2 * gm)%f + FP.literal lit 1 10000)%d in
  step s = s'
  /\ null_dt r dr dtheta = dt
  /\ d2r r dt dr dtheta = ddr
  /\ d2theta r dr dtheta = ddtheta
  /\ FP.ltb dt FP.zero = false
  /\ (standard ->
      gm = S754_finite false 10485760 (-20)
      /\ ts = S754_finite false 10737418 (-30))
  /\ forall n, loop (S n) s =
       if FP.leb r' min_r' then (s', true)
       else if FP.ltb (FP.of_Z lit 500) (D r') then (s', false)
       else loop n s'.
Proof.
  destruct s as [r theta dr dtheta]. cbv zeta.
  match goal with |- step _ = ?x /\ _ => set (s' := x) end.
  assert (Hstep : step (Ray r theta dr dtheta) = s') by reflexivity.
  split; [exact Hstep|]. do 3 (split; [reflexivity|]).
  split; [apply sqrt_not_negative|]. split.
  - intros [E | E]; rewrite E; split; vm_compute; reflexivity.
  - intros n. rewrite loop_unfold, Hstep. reflexivity.
Qed.

(** C4: the state of the ray of slot [slot] before the loop, for a table of
    [num >= 2] rays. *)
Theorem initial_state (min max : spec_float) (num : Z) (start_r : spec_float)
    (slot : Z) :
  2 <= num <= Int.INT_MAX ->
  let frac := (FP.of_Z binary32 slot / FP.of_Z binary32 (num - 1))%f in
  let ray_amt' := F (D (max * frac)%f + D min * (c_1 - D frac))%d in
  let dx := ray_amt' in
  let dz := F c_1 in
  let r := start_r in
  ray_amt min max num slot = ray_amt'
  /\ initial min max num start_r slot
     = Ray r (F M_PI) (- start_r * dz / r)%f (- start_r * dx / (r * r))%f
  /\ (standard ->
      F M_PI = S754_finite false 13176795 (-22)
      /\ dz = S754_finite false 8388608 (-23)).
Proof.
  intros Hnum. cbv zeta.
  assert (Hsub : Int.sub num 1 = num - 1).
  { unfold Int.sub. apply wrap_int_small. int_range. }
  assert (Hamt : ray_amt min max num slot
                 = F (D (max * (FP.of_Z binary32 slot
                                / FP.of_Z binary32 (num - 1)))%f
                      + D min * (c_1 - D (FP.of_Z binary32 slot
                                          / FP.of_Z binary32 (num - 1))%f))%d).
  { unfold ray_amt. rewrite Hsub. reflexivity. }
  split; [exact Hamt|]. split.
  - unfold initial. rewrite Hamt. reflexivity.
  - unfold M_PI, c_1. intros [E | E]; rewrite E; split; reflexivity.
Qed.

(** ** The table lookup *)

Lemma load_in_range {A} (arr : list A) i :
  0 <= i < Z.of_nat (length arr) ->
  exists v, arr !! Z.to_nat i = Some v /\ load arr i = Some v.
Proof.
  intros H. destruct (lookup_lt_is_Some_2 arr (Z.to_nat i)) as [v Hv]; [lia|].
  exists v. split; [exact Hv|]. unfold load.
  destruct (Z.leb_spec 0 i); [exact Hv|lia].
Qed.

Lemma to_int_floor pos posi :
  FP.floor pos = Some posi -> 0 <= posi <= Int.INT_MAX ->
  FP.to_int pos = Some posi.
Proof.
  intros Hfl Hr. unfold FP.to_int. rewrite (floor_trunc pos posi Hfl) by lia.
  unfold Int.INT_MIN, Int.INT_MAX in *.
  destruct (Z.leb_spec (- 2 ^ 31) posi); [|lia].
  destruct (Z.leb_spec posi (2 ^ 31 - 1)); [|lia]. reflexivity.
Qed.

(** The result of [lookup] at a position whose integer part [posi] is in
    range, in terms of the four table entries it reads. *)
Lemma lookup_in_range (angles : list spec_float) (angle_results : list Z)
    (pos : spec_float) (posi : Z) :
  length angle_results = length angles ->
  Z.of_nat (length angles) <= Int.INT_MAX ->
  FP.floor pos = Some posi ->
  0 <= posi <= Z.of_nat (length angles) - 2 ->
  exists a0 a1 o0 o1,
    angles !! Z.to_nat posi = Some a0
    /\ angles !! Z.to_nat (posi + 1) = Some a1
    /\ angle_results !! Z.to_nat posi = Some o0
    /\ angle_results !! Z.to_nat (posi + 1) = Some o1
    /\ lookup angles angle_results pos
       = Some (mkRes
                 (if o0 =? o1 then
                    let frac := (pos - FP.of_Z binary32 posi)%f in
                    F ((c_1 - D frac) * D a0 + D (frac * a1)%f)%d
                  else a0)
                 o0).
Proof.
  intros Hlen Hmax Hfl Hr.
  destruct (load_in_range angles posi) as (a0 & Ha0 & La0); [lia|].
  destruct (load_in_range angles (posi + 1)) as (a1 & Ha1 & La1); [lia|].
  destruct (load_in_range angle_results posi) as (o0 & Ho0 & Lo0); [lia|].
  destruct (load_in_range angle_results (posi + 1)) as (o1 & Ho1 & Lo1); [lia|].
  exists a0, a1, o0, o1. repeat (split; [assumption|]).
  unfold lookup. rewrite (to_int_floor pos posi Hfl) by lia. simpl.
  assert (Hadd : Int.add posi 1 = posi + 1).
  { unfold Int.add. apply wrap_int_small. int_range. }
  rewrite Hadd, Lo0. simpl. rewrite Lo1. simpl.
  destruct (o0 =? o1); simpl; rewrite La0; simpl; [rewrite La1|]; reflexivity.
Qed.

(** C5: for a position [pos] with [0 <= pos <= num - 2], that is, whose
    integer part [posi = floor(pos)] has [0 <= posi <= num - 2], [lookup]
    returns the outcome of slot [posi]; the angle of slot [posi] when the
    outcomes of slots [posi] and [posi + 1] differ; and the blend of the two
    angles, with weights [1 - frac] and [frac], when they agree.  At a
    position that is exactly [posi + 1/2] and between two slots with
    different outcomes, the angle is that of slot [posi]. *)
Theorem lookup_interpolates (angles : list spec_float)
    (angle_results : list Z) (pos : spec_float) (posi : Z) :
  length angle_results = length angles ->
  Z.of_nat (length angles) <= Int.INT_MAX ->
  FP.floor pos = Some posi ->
  0 <= posi <= Z.of_nat (length angles) - 2 ->
  exists a0 a1 o0 o1 res,
    angles !! Z.to_nat posi = Some a0
    /\ angles !! Z.to_nat (posi + 1) = Some a1
    /\ angle_results !! Z.to_nat posi = Some o0
    /\ angle_results !! Z.to_nat (posi + 1) = Some o1
    /\ lookup angles angle_results pos = Some res
    /\ outcome res = o0
    /\ (o0 <> o1 -> angle res = a0)
    /\ (o0 = o1 ->
        let frac := (pos - FP.of_Z binary32 posi)%f in
        angle res = F ((c_1 - D frac) * D a0 + D (frac * a1)%f)%d)
    /\ (forall half, is_half_past half posi -> o0 <> o1 ->
        lookup angles angle_results half = Some (mkRes a0 o0)).
Proof.
  intros Hlen Hmax Hfl Hr.
  destruct (lookup_in_range angles angle_results pos posi Hlen Hmax Hfl Hr)
    as (a0 & a1 & o0 & o1 & Ha0 & Ha1 & Ho0 & Ho1 & Hlk).
  eexists a0, a1, o0, o1, _. repeat (split; [eassumption|]).
  simpl. split; [reflexivity|]. split; [|split].
  - intros Hne. apply Z.eqb_neq in Hne. rewrite Hne. reflexivity.
  - intros Heq. apply Z.eqb_eq in Heq. rewrite Heq. reflexivity.
  - intros half Hhalf Hne.
    destruct (lookup_in_range angles angle_results half posi Hlen Hmax
                (floor_half_past half posi Hhalf) Hr)
      as (b0 & b1 & p0 & p1 & Hb0 & Hb1 & Hp0 & Hp1 & Hlk').
    rewrite Hlk'.
    assert (b0 = a0) by congruence. assert (p0 = o0) by congruence.
    assert (p1 = o1) by congruence. subst.
    apply Z.eqb_neq in Hne. rewrite Hne. reflexivity.
Qed.

Lemma Zpos_iter_xO m k : Zpos (Pos.iter xO m k) = Zpos m * 2 ^ Zpos k.
Proof.
  induction k using Pos.peano_ind.
  - simpl. lia.
  - rewrite Pos.iter_succ, Pos2Z.inj_succ, Z.pow_succ_r by lia.
    rewrite Pos2Z.inj_xO, IHk. lia.
Qed.

Lemma digits2_pos_bound m k :
  Zpos m < 2 ^ k -> 0 <= k -> Zpos (digits2_pos m) <= k.
Proof.
  revert k. induction m as [m IH|m IH|]; intros k Hm Hk; simpl.
  - destruct (Z.eq_dec k 0) as [->|]; [simpl in Hm; lia|].
    replace k with (Z.succ (k - 1)) in Hm by lia.
    rewrite Z.pow_succ_r in Hm by lia.
    specialize (IH (k - 1)). lia.
  - destruct (Z.eq_dec k 0) as [->|]; [simpl in Hm; lia|].
    replace k with (Z.succ (k - 1)) in Hm by lia.
    rewrite Z.pow_succ_r in Hm by lia.
    specialize (IH (k - 1)). lia.
  - destruct (Z.eq_dec k 0) as [->|]; [simpl in Hm; lia|]. lia.
Qed.

Lemma sub_diag_finite f x :
  FP.is_finite x = true -> FP.is_zero (FP.sub f x x) = true.
Proof.
  destruct x as [[]| | |s m ex]; try discriminate; try reflexivity.
  intros _. unfold FP.sub, SFsub. rewrite Z.sub_diag. reflexivity.
Qed.

(** The float of a small integer is that integer. *)
Lemma of_Z_shape m :
  Zpos m < 2 ^ 24 ->
  exists m' e',
    FP.of_Z binary32 (Zpos m) = S754_finite false m' e'
    /\ FP.scale_down (Zpos m') e' = Zpos m.
Proof.
  intros Hm.
  pose proof (digits2_pos_bound m 24 Hm ltac:(lia)) as Hd.
  unfold FP.of_Z, binary_normalize, binary_round. simpl FP.prec. simpl FP.emax.
  assert (Hf : fexp 24 128 (Z.pos (digits2_pos m) + 0)
               = Z.pos (digits2_pos m) - 24).
  { unfold fexp, emin. lia. }
  rewrite Hf. unfold shl_align.
  destruct (Z.pos (digits2_pos m) - 24 - 0) as [|k|k] eqn:Hk; [|lia|].
  - rewrite round_exact.
    + eexists _, _. split; [reflexivity|].
      replace (Z.pos (digits2_pos m) - 24) with 0 by lia. simpl. lia.
    + unfold bounded, canonical_mantissa. rewrite Hf.
      apply andb_true_intro. split; [apply Z.eqb_eq; lia | reflexivity].
  - rewrite round_exact.
    + eexists _, _. split; [reflexivity|].
      replace (Z.pos (digits2_pos m) - 24) with (Z.neg k) by lia.
      simpl. rewrite Zpos_iter_xO. apply Z.div_mul.
      apply Z.pow_nonzero; lia.
    + unfold bounded, canonical_mantissa. rewrite digits2_pos_iter.
      apply andb_true_intro. split.
      * apply Z.eqb_eq. unfold fexp, emin. lia.
      * apply Z.leb_le. lia.
Qed.

Lemma of_Z_exact z :
  0 <= z < 2 ^ 24 ->
  FP.is_finite (FP.of_Z binary32 z) = true
  /\ FP.floor (FP.of_Z binary32 z) = Some z.
Proof.
  intros Hz. destruct z as [|m|m]; [split; reflexivity| |lia].
  destruct (of_Z_shape m (proj2 Hz)) as (m' & e' & -> & Hs).
  split; [reflexivity|]. simpl. f_equal. exact Hs.
Qed.

(** The position [(float)i] of slot [i] has integer part [i] and fractional
    part zero. *)
Lemma slot_position i :
  0 <= i < 2 ^ 24 ->
  let pos := FP.of_Z binary32 i in
  FP.floor pos = Some i
  /\ FP.is_zero (pos - FP.of_Z binary32 i)%f = true.
Proof.
  intros Hi. destruct (of_Z_exact i Hi) as [Hfin Hfl].
  split; [exact Hfl | apply sub_diag_finite, Hfin].
Qed.

Lemma sub_zero_r s : standard -> (c_1 - S754_zero s)%d = c_1.
Proof. unfold c_1. intros [E | E]; rewrite E; reflexivity. Qed.

(** The blend with weights 1 and 0. *)
Lemma blend_at_zero frac a0 a1 :
  standard -> is_float a0 ->
  FP.is_zero frac = true -> FP.is_finite a1 = true ->
  same_number (F ((c_1 - D frac) * D a0 + D (frac * a1)%f)%d) a0.
Proof.
  intros Hstd Ha0 Hfrac Ha1.
  destruct frac as [sf| | |]; try discriminate.
  destruct (round_trip lit a0 Hstd Ha0) as [Hback Hvalid].
  simpl (D (S754_zero sf)). rewrite (sub_zero_r sf Hstd).
  unfold c_1. rewrite (mul_one lit (D a0) Hstd Hvalid).
  assert (Hz : exists s, D (S754_zero sf * a1)%f = S754_zero s).
  { destruct a1 as [s1| | |s1 m1 e1]; try discriminate; simpl; eauto. }
  destruct Hz as [sz ->].
  destruct (D a0) as [sa| | |sa ma ea] eqn:HD.
  - right. rewrite <- Hback. simpl.
    destruct sa, sz; split; reflexivity.
  - left. exact Hback.
  - left. exact Hback.
  - left. exact Hback.
Qed.

(** C6, as the code has it: at the position of a slot [i] (integer part [i],
    fractional part zero) [lookup] returns the outcome of slot [i] and the
    number that is the angle of slot [i], provided the angle of slot [i + 1]
    is finite or the two outcomes differ. *)
Theorem lookup_at_slot (angles : list spec_float) (angle_results : list Z)
    (pos : spec_float) (i : Z) :
  standard ->
  Forall is_float angles ->
  length angle_results = length angles ->
  Z.of_nat (length angles) <= Int.INT_MAX ->
  FP.floor pos = Some i ->
  FP.is_zero (pos - FP.of_Z binary32 i)%f = true ->
  0 <= i <= Z.of_nat (length angles) - 2 ->
  exists a0 a1 o0 o1 res,
    angles !! Z.to_nat i = Some a0
    /\ angles !! Z.to_nat (i + 1) = Some a1
    /\ angle_results !! Z.to_nat i = Some o0
    /\ angle_results !! Z.to_nat (i + 1) = Some o1
    /\ lookup angles angle_results pos = Some res
    /\ outcome res = o0
    /\ (o0 <> o1 \/ FP.is_finite a1 = true -> same_number (angle res) a0).
Proof.
  intros Hstd Hfl Hlen Hmax Hpos Hfrac Hr.
  destruct (lookup_in_range angles angle_results pos i Hlen Hmax Hpos Hr)
    as (a0 & a1 & o0 & o1 & Ha0 & Ha1 & Ho0 & Ho1 & Hlk).
  eexists a0, a1, o0, o1, _. repeat (split; [eassumption|]).
  simpl. split; [reflexivity|]. intros Hcase.
  destruct (Z.eqb_spec o0 o1) as [Heq|Hne]; [|left; reflexivity].
  destruct Hcase as [Hne|Hfin]; [contradiction|].
  apply blend_at_zero; try assumption.
  exact (proj1 (Forall_lookup _ _) Hfl _ _ Ha0).
Qed.

(** ** Mirrored rays *)

Lemma div_opp_l f x y : FP.div f (FP.opp x) y = FP.opp (FP.div f x y).
Proof.
  unfold FP.div, FP.opp.
  destruct x as [sx|sx| |sx mx ex], y as [sy|sy| |sy my ey]; simpl;
    try reflexivity; try (destruct sx, sy; reflexivity).
  destruct (SFdiv_core_binary _ _ _ _ _ _) as [[mz ez] lz].
  rewrite <- binary_round_aux_opp. destruct sx, sy; reflexivity.
Qed.

Lemma null_dt_mirror r dr dtheta dtheta' :
  opposite dtheta dtheta' -> null_dt r dr dtheta = null_dt r dr dtheta'.
Proof.
  intros H. unfold null_dt.
  rewrite (mul_mul_opposite binary32 (r * r)%f dtheta dtheta' H). reflexivity.
Qed.

Lemma d2r_mirror r dt dr dtheta dtheta' :
  opposite dtheta dtheta' -> d2r r dt dr dtheta = d2r r dt dr dtheta'.
Proof.
  intros H. unfold d2r.
  rewrite (mul_mul_opposite lit (D r - c_2 * D GM)%d (D dtheta) (D dtheta')
             (opposite_cvt lit _ _ H)).
  reflexivity.
Qed.

Lemma d2theta_mirror r dr dtheta dtheta' :
  opposite dtheta dtheta' ->
  opposite (d2theta r dr dtheta) (d2theta r dr dtheta').
Proof.
  intros H. unfold d2theta.
  auto with opposite.
Qed.

Lemma step_mirror s s' : mirror s s' -> mirror (step s) (step s').
Proof.
  destruct s as [r theta dr dtheta], s' as [r' theta' dr' dtheta'].
  unfold mirror. simpl. intros (<- & <- & H).
  rewrite <- (null_dt_mirror r dr dtheta dtheta' H).
  rewrite <- (d2r_mirror r (null_dt r dr dtheta) dr dtheta dtheta' H).
  pose proof (d2theta_mirror r dr dtheta dtheta' H).
  repeat split. auto with opposite.
Qed.

Lemma after_mirror k : forall s s',
  mirror s s' -> mirror (after k s) (after k s').
Proof.
  induction k as [|k IH]; intros s s' H; [exact H|].
  rewrite !after_succ. apply IH, step_mirror, H.
Qed.

Lemma crossed_mirror s s' :
  mirror s s' -> fallen s = fallen s' /\ far s = far s'.
Proof. unfold fallen, far. intros (-> & _). auto. Qed.

Lemma loop_mirror n : forall s s',
  mirror s s' ->
  mirror (loop n s).1 (loop n s').1 /\ (loop n s).2 = (loop n s').2.
Proof.
  induction n as [|n IH]; intros s s' H; [split; [exact H|reflexivity]|].
  rewrite !loop_unfold.
  pose proof (step_mirror s s' H) as Hs.
  destruct (crossed_mirror _ _ Hs) as [<- <-].
  destruct (fallen (step s)); [split; [exact Hs|reflexivity]|].
  destruct (far (step s)); [split; [exact Hs|reflexivity]|].
  apply IH, Hs.
Qed.

Lemma outcome_record s hit : outcome (record s hit) = if hit then 0 else 1.
Proof. destruct s, hit; reflexivity. Qed.

Lemma initial_mirror min max num start_r i j :
  ray_amt min max num j = FP.opp (ray_amt min max num i) ->
  mirror (initial min max num start_r i) (initial min max num start_r j).
Proof.
  intros H. unfold mirror, initial. simpl. rewrite H.
  repeat split. left.
  rewrite mul_opp_r. apply div_opp_l.
Qed.

(** *** The two end slots *)

Lemma of_Z_positive z :
  1 <= z < 2 ^ 24 -> exists m e, FP.of_Z binary32 z = S754_finite false m e.
Proof.
  intros Hz. destruct z as [|p|p]; try lia.
  destruct (of_Z_shape p (proj2 Hz)) as (m & e & H & _). eauto.
Qed.

Lemma div_self s m e :
  FP.div binary32 (S754_finite s m e) (S754_finite s m e)
  = FP.of_Z binary32 1.
Proof.
  unfold FP.div, SFdiv, SFdiv_core_binary. simpl FP.prec. simpl FP.emax.
  rewrite !Z.sub_diag.
  change (Z.min (fexp 24 128 0) 0) with (-24).
  change (0 - -24) with 24.
  rewrite Z.shiftl_mul_pow2 by lia.
  assert (Hm : Z.pos m <> 0) by lia.
  pose proof (Z.div_mul (2 ^ 24) (Z.pos m) Hm) as Hq.
  pose proof (Z.mod_mul (2 ^ 24) (Z.pos m) Hm) as Hr.
  unfold Z.div, Z.modulo in Hq, Hr.
  rewrite (Z.mul_comm (Z.pos m)).
  destruct (Z.div_eucl (2 ^ 24 * Z.pos m) (Z.pos m)) as [q r0].
  simpl in Hq, Hr. subst q r0.
  unfold new_location.
  destruct (Z.even (Z.pos m)), s; reflexivity.
Qed.

Lemma mul_one_r f x :
  f = binary32 \/ f = binary64 ->
  valid_binary (FP.prec f) (FP.emax f) x = true ->
  FP.mul f x (FP.of_Z f 1) = x.
Proof.
  intros Hf Hv. rewrite <- (mul_one f x Hf Hv) at 2.
  destruct Hf as [-> | ->];
    destruct x as [sx|sx| |sx m ex]; try reflexivity;
    try (destruct sx; reflexivity).
  - change (FP.mul binary32 (S754_finite sx m ex) (FP.of_Z binary32 1))
      with (binary_round_aux 24 128 (xorb sx false)
              (Zpos (m * 8388608)) (ex + -23) loc_Exact).
    change (FP.mul binary32 (FP.of_Z binary32 1) (S754_finite sx m ex))
      with (binary_round_aux 24 128 (xorb false sx)
              (Zpos (8388608 * m)) (-23 + ex) loc_Exact).
    rewrite Pos.mul_comm, Z.add_comm, xorb_comm. reflexivity.
  - change (FP.mul binary64 (S754_finite sx m ex) (FP.of_Z binary64 1))
      with (binary_round_aux 53 1024 (xorb sx false)
              (Zpos (m * 4503599627370496)) (ex + -52) loc_Exact).
    change (FP.mul binary64 (FP.of_Z binary64 1) (S754_finite sx m ex))
      with (binary_round_aux 53 1024 (xorb false sx)
              (Zpos (4503599627370496 * m)) (-52 + ex) loc_Exact).
    rewrite Pos.mul_comm, Z.add_comm, xorb_comm. reflexivity.
Qed.

Lemma cvt_finite s m e :
  standard -> is_float (S754_finite s m e) ->
  exists m' e', D (S754_finite s m e) = S754_finite s m' e'.
Proof.
  intros [E | E] Hv; rewrite E.
  - rewrite (cvt_valid binary32 _ Hv). eauto.
  - destruct (cvt_widen s m e Hv) as (j & -> & _). eauto.
Qed.

Lemma sub_one_one : standard -> (c_1 - D (FP.of_Z binary32 1))%d = FP.zero.
Proof. unfold c_1. intros [E | E]; rewrite E; reflexivity. Qed.

(** For [min = - max], slot 0 aims at [min] and slot [num - 1] at [max]. *)
Lemma ray_amt_ends s m e (num : Z) :
  standard -> is_float (S754_finite s m e) -> 2 <= num <= 2 ^ 24 ->
  let max := S754_finite s m e in
  let min := FP.opp max in
  ray_amt min max num 0 = min /\ ray_amt min max num (num - 1) = max.
Proof.
  intros Hstd Hv Hnum max min.
  assert (Hvmin : is_float min) by exact Hv.
  assert (Hsub : Int.sub num 1 = num - 1).
  { unfold Int.sub. apply wrap_int_small. int_range. }
  destruct (of_Z_positive (num - 1) ltac:(lia)) as (mn & en & Hn).
  destruct (round_trip lit max Hstd Hv) as [Hback Hvalid].
  destruct (round_trip lit min Hstd Hvmin) as [Hback' Hvalid'].
  destruct (cvt_finite s m e Hstd Hv) as (m1 & e1 & HD).
  destruct (cvt_finite (negb s) m e Hstd Hvmin) as (m2 & e2 & HD').
  fold max in HD. change (S754_finite (negb s) m e) with min in HD'.
  unfold ray_amt. rewrite Hsub, Hn. split.
  - change (FP.of_Z binary32 0 / S754_finite false mn en)%f with FP.zero.
    change (D FP.zero) with (S754_zero false).
    rewrite (sub_zero_r false Hstd).
    unfold c_1. rewrite (mul_one_r lit (D min) Hstd Hvalid').
    rewrite HD'.
    change (D (max * FP.zero)%f) with (S754_zero (xorb s false)).
    change (S754_zero (xorb s false) + S754_finite (negb s) m2 e2)%d
      with (S754_finite (negb s) m2 e2).
    rewrite <- HD'. exact Hback'.
  - rewrite div_self.
    rewrite (mul_one_r binary32 max (or_introl eq_refl) Hv).
    rewrite (sub_one_one Hstd).
    rewrite HD, HD'.
    change (S754_finite (negb s) m2 e2 * FP.zero)%d
      with (S754_zero (xorb (negb s) false)).
    change (S754_finite s m1 e1 + S754_zero (xorb (negb s) false))%d
      with (S754_finite s m1 e1).
    rewrite <- HD. exact Hback.
Qed.


(** ** The renderer *)

Lemma sum_below_ext n f f' :
  (forall j, 0 <= j < Z.of_nat n -> f j = f' j) ->
  sum_below n f = sum_below n f'.
Proof.
  induction n as [|n IH]; intros H; [reflexivity|]. simpl.
  rewrite IH, (H (Z.of_nat n)) by (intros; try apply H; lia). reflexivity.
Qed.

Lemma sum_below_shift n f :
  sum_below (S n) f = f 0 + sum_below n (fun j => f (j + 1)).
Proof.
  induction n as [|n IH].
  { simpl sum_below. change (Z.of_nat 0) with 0. lia. }
  change (sum_below (S (S n)) f)
    with (sum_below (S n) f + f (Z.of_nat (S n))).
  rewrite IH. simpl sum_below. rewrite Nat2Z.inj_succ. unfold Z.succ. lia.
Qed.

Lemma sum_below_bounds n f lo hi :
  (forall j, 0 <= j < Z.of_nat n -> lo <= f j <= hi) ->
  Z.of_nat n * lo <= sum_below n f <= Z.of_nat n * hi.
Proof.
  induction n as [|n IH]; intros H; [simpl; lia|].
  simpl sum_below. specialize (IH ltac:(intros; apply H; lia)).
  specialize (H (Z.of_nat n) ltac:(lia)). lia.
Qed.

(** A loop whose body adds [fr i], [fg i], [fb i] to the accumulators. *)
Lemma for_loop_sum (body : Z -> acc -> option acc) (fr fg fb : Z -> Z) fuel :
  forall i0 R G B,
  (forall j R G B, i0 <= j < i0 + Z.of_nat fuel ->
     body j (wrapped R G B)
     = Some (wrapped (R + fr j) (G + fg j) (B + fb j))) ->
  for_loop fuel i0 body (wrapped R G B)
  = Some (wrapped (R + sum_below fuel (fun j => fr (i0 + j)))
                  (G + sum_below fuel (fun j => fg (i0 + j)))
                  (B + sum_below fuel (fun j => fb (i0 + j)))).
Proof.
  induction fuel as [|fuel IH]; intros i0 R G B Hbody.
  - simpl. rewrite !Z.add_0_r. reflexivity.
  - rewrite !sum_below_shift, !Z.add_0_r.
    simpl for_loop. rewrite Hbody by lia. simpl.
    rewrite IH by (intros; apply Hbody; lia).
    rewrite (sum_below_ext fuel (fun j => fr (i0 + (j + 1)))
               (fun j => fr (i0 + 1 + j)))
      by (intros; f_equal; lia).
    rewrite (sum_below_ext fuel (fun j => fg (i0 + (j + 1)))
               (fun j => fg (i0 + 1 + j)))
      by (intros; f_equal; lia).
    rewrite (sum_below_ext fuel (fun j => fb (i0 + (j + 1)))
               (fun j => fb (i0 + 1 + j)))
      by (intros; f_equal; lia).
    rewrite !Z.add_assoc. reflexivity.
Qed.

Lemma for_loop_ext {S : Type} (body body' : Z -> S -> option S) fuel :
  forall i0 s,
  (forall j s, i0 <= j < i0 + Z.of_nat fuel -> body j s = body' j s) ->
  for_loop fuel i0 body s = for_loop fuel i0 body' s.
Proof.
  induction fuel as [|fuel IH]; intros i0 s H; [reflexivity|].
  simpl. rewrite H by lia. destruct (body' i0 s); [|reflexivity].
  simpl. apply IH. intros. apply H. lia.
Qed.

Lemma pixel_from_img_range img coords :
  let px := pixel_from_img img coords in
  0 <= r px < 256 /\ 0 <= g px < 256 /\ 0 <= b px < 256.
Proof. simpl. repeat split; apply to_uchar_range. Qed.

Lemma pixel_from_img_rgb img img' coords :
  same_rgb (read_imagef img coords) (read_imagef img' coords) ->
  let px := pixel_from_img img coords in
  let px' := pixel_from_img img' coords in
  r px = r px' /\ g px = g px' /\ b px = b px'.
Proof.
  unfold same_rgb, pixel_from_img. simpl. intros (-> & -> & ->). auto.
Qed.

Section Render.

Variables (angles : list spec_float) (angle_results : list Z).
Variables (x_res y_res pitch : Z) (cx cy : spec_float).
Variables (skytex spheretex skytex' spheretex' : image2d_t).
Variables (aa num_outcomes : Z).

Lemma supersample_range gid0 gid1 aa_x aa_y px :
  supersample angles angle_results x_res y_res cx cy skytex spheretex aa
    num_outcomes gid0 gid1 aa_x aa_y = Some px ->
  0 <= r px < 256 /\ 0 <= g px < 256 /\ 0 <= b px < 256.
Proof.
  unfold supersample. destruct (lookup _ _ _) as [res|]; [|discriminate].
  cbn [mbind option_bind]. destruct (direction _ _ _ _) as [theta phi].
  destruct (outcome res =? 0); intros [= <-]; apply pixel_from_img_range.
Qed.

Lemma accumulate_adds gid0 gid1 aa_x aa_y px R G B :
  supersample angles angle_results x_res y_res cx cy skytex spheretex aa
    num_outcomes gid0 gid1 aa_x aa_y = Some px ->
  accumulate angles angle_results x_res y_res cx cy skytex spheretex aa
    num_outcomes gid0 gid1 aa_x aa_y (wrapped R G B)
  = Some (wrapped (R + r px) (G + g px) (B + b px)).
Proof.
  intros H. unfold accumulate. rewrite H. simpl.
  unfold Int.add. rewrite !wrap_int_add. reflexivity.
Qed.

(** The two loops leave the three sums, reduced to [int]. *)
Lemma aa_loops_sums gid0 gid1 (smp : Z -> Z -> Pixel) :
  (forall aa_x aa_y, 0 <= aa_x < aa -> 0 <= aa_y < aa ->
     supersample angles angle_results x_res y_res cx cy skytex spheretex aa
       num_outcomes gid0 gid1 aa_x aa_y = Some (smp aa_x aa_y)) ->
  aa_loops angles angle_results x_res y_res cx cy skytex spheretex aa
    num_outcomes gid0 gid1 (Acc 0 0 0)
  = Some (wrapped (channel_sum aa smp r) (channel_sum aa smp g)
                  (channel_sum aa smp b)).
Proof.
  intros Hsmp. unfold aa_loops, channel_sum.
  change (Acc 0 0 0) with (wrapped 0 0 0).
  rewrite (for_loop_sum _
             (fun x => sum_below (Z.to_nat aa) (fun y => r (smp x y)))
             (fun x => sum_below (Z.to_nat aa) (fun y => g (smp x y)))
             (fun x => sum_below (Z.to_nat aa) (fun y => b (smp x y)))).
  - reflexivity.
  - intros x R G B Hx.
    rewrite (for_loop_sum _ (fun y => r (smp x y)) (fun y => g (smp x y))
               (fun y => b (smp x y))).
    + reflexivity.
    + intros y R' G' B' Hy. apply accumulate_adds, Hsmp; lia.
Qed.

Lemma channel_sum_bounds gid0 gid1 (smp : Z -> Z -> Pixel) (ch : Pixel -> Z) :
  ch = r \/ ch = g \/ ch = b ->
  (forall aa_x aa_y, 0 <= aa_x < aa -> 0 <= aa_y < aa ->
     supersample angles angle_results x_res y_res cx cy skytex spheretex aa
       num_outcomes gid0 gid1 aa_x aa_y = Some (smp aa_x aa_y)) ->
  0 <= aa ->
  0 <= channel_sum aa smp ch <= 255 * (aa * aa).
Proof.
  intros Hch Hsmp Haa. unfold channel_sum.
  pose proof (sum_below_bounds (Z.to_nat aa)
    (fun aa_x => sum_below (Z.to_nat aa) (fun aa_y => ch (smp aa_x aa_y)))
    0 (aa * 255)) as H.
  rewrite Z2Nat.id in H by lia.
  assert (Hin : forall j, 0 <= j < aa ->
    0 <= sum_below (Z.to_nat aa) (fun aa_y => ch (smp j aa_y)) <= aa * 255).
  { intros x Hx.
    pose proof (sum_below_bounds (Z.to_nat aa) (fun aa_y => ch (smp x aa_y))
                  0 255) as H'.
    rewrite Z2Nat.id in H' by lia.
    assert (Hy : forall y, 0 <= y < aa -> 0 <= ch (smp x y) <= 255);
      [|specialize (H' Hy); lia].
    intros y Hy.
    pose proof (supersample_range gid0 gid1 x y _ (Hsmp x y Hx Hy)).
    destruct Hch as [-> | [-> | ->]]; lia. }
  specialize (H Hin). lia.
Qed.

(** C9, as the code has it: for [aa >= 1] whose square is not 0 in [int]
    arithmetic, when every supersample finds its place in the table, the
    accumulators hold the sums of the red, green and blue channels over the
    [aa * aa] supersamples, reduced to [int]; each is divided by [aa * aa]
    with truncation, and the pixel is made of the low bytes of the three
    quotients.  Up to [aa = 2901] nothing wraps around: the three bytes are
    the truncated averages. *)
Theorem antialias_average gid0 gid1 (smp : Z -> Z -> Pixel) :
  1 <= aa <= Int.INT_MAX ->
  Int.mul aa aa <> 0 ->
  (forall aa_x aa_y, 0 <= aa_x < aa -> 0 <= aa_y < aa ->
     supersample angles angle_results x_res y_res cx cy skytex spheretex aa
       num_outcomes gid0 gid1 aa_x aa_y = Some (smp aa_x aa_y)) ->
  let sum := channel_sum aa smp in
  let quotient v :=
    Int.wrap_int (Z.quot (Int.wrap_int v) (Int.mul aa aa)) in
  aa_loops angles angle_results x_res y_res cx cy skytex spheretex aa
    num_outcomes gid0 gid1 (Acc 0 0 0)
  = Some (Acc (Int.wrap_int (sum r)) (Int.wrap_int (sum g))
              (Int.wrap_int (sum b)))
  /\ final_pixel angles angle_results x_res y_res cx cy skytex spheretex aa
       num_outcomes gid0 gid1
     = Some (mkPixel (Int.wrap_uchar (quotient (sum b)))
                     (Int.wrap_uchar (quotient (sum g)))
                     (Int.wrap_uchar (quotient (sum r))) 0)
  /\ (aa <= 2901 ->
      final_pixel angles angle_results x_res y_res cx cy skytex spheretex aa
        num_outcomes gid0 gid1
      = Some (mkPixel (Z.quot (sum b) (aa * aa)) (Z.quot (sum g) (aa * aa))
                      (Z.quot (sum r) (aa * aa)) 0)
      /\ 0 <= Z.quot (sum r) (aa * aa) <= 255
      /\ 0 <= Z.quot (sum g) (aa * aa) <= 255
      /\ 0 <= Z.quot (sum b) (aa * aa) <= 255).
Proof.
  intros Haa Hsq Hsmp sum quotient.
  pose proof (aa_loops_sums gid0 gid1 smp Hsmp) as Hloops.
  assert (Hpx :
    final_pixel angles angle_results x_res y_res cx cy skytex spheretex aa
      num_outcomes gid0 gid1
    = Some (mkPixel (Int.wrap_uchar (quotient (sum b)))
                    (Int.wrap_uchar (quotient (sum g)))
                    (Int.wrap_uchar (quotient (sum r))) 0)).
  { unfold final_pixel. rewrite Hloops. unfold Int.div.
    apply Z.eqb_neq in Hsq. rewrite Hsq. reflexivity. }
  split; [exact Hloops|]. split; [exact Hpx|].
  intros Hsmall.
  assert (Hd : Int.mul aa aa = aa * aa).
  { unfold Int.mul. apply wrap_int_small.
    unfold Int.INT_MIN, Int.INT_MAX. nia. }
  assert (Hq : forall ch, ch = r \/ ch = g \/ ch = b ->
    0 <= Z.quot (sum ch) (aa * aa) <= 255
    /\ Int.wrap_uchar (quotient (sum ch)) = Z.quot (sum ch) (aa * aa)).
  { intros ch Hch.
    pose proof (channel_sum_bounds gid0 gid1 smp ch Hch Hsmp ltac:(lia)) as Hb.
    fold (sum ch) in Hb.
    assert (Hr : 0 <= Z.quot (sum ch) (aa * aa) <= 255).
    { rewrite Z.quot_div_nonneg by nia. split.
      - apply Z.div_pos; nia.
      - apply Z.div_le_upper_bound; nia. }
    split; [exact Hr|]. unfold quotient. rewrite Hd.
    rewrite (wrap_int_small (sum ch))
      by (unfold Int.INT_MIN, Int.INT_MAX; nia).
    rewrite wrap_int_small by int_range.
    apply wrap_uchar_small. lia. }
  destruct (Hq r ltac:(auto)) as [Hr1 Hr2].
  destruct (Hq g ltac:(auto)) as [Hg1 Hg2].
  destruct (Hq b ltac:(auto)) as [Hb1 Hb2].
  rewrite Hpx, Hr2, Hg2, Hb2. auto.
Qed.

(** C1, as the code has it: the pixel a work-item stores at
    [buffer[pixel_loc]] has, in its field [a], the low byte of the averaged
    blue; in [r], of the averaged green; in [g], of the averaged red; and 0
    in [b]. *)
Theorem pixel_layout gid0 gid1 (buffer buffer' : list Pixel) :
  schwarz angles angle_results x_res y_res pitch cx cy skytex spheretex aa
    num_outcomes gid0 gid1 buffer = Some buffer' ->
  let pixel_loc := Int.wrap_int (gid0 + gid1 * pitch) in
  exists s res_r' res_g' res_b',
    aa_loops angles angle_results x_res y_res cx cy skytex spheretex aa
      num_outcomes gid0 gid1 (Acc 0 0 0) = Some s
    /\ Int.div (res_r s) (Int.mul aa aa) = Some res_r'
    /\ Int.div (res_g s) (Int.mul aa aa) = Some res_g'
    /\ Int.div (res_b s) (Int.mul aa aa) = Some res_b'
    /\ buffer' !! Z.to_nat pixel_loc
       = Some {| a := Int.wrap_uchar res_b'; r := Int.wrap_uchar res_g';
                 g := Int.wrap_uchar res_r'; b := 0 |}
    /\ forall i, i <> Z.to_nat pixel_loc -> buffer' !! i = buffer !! i.
Proof.
  intros H pixel_loc. unfold schwarz, final_pixel in H. fold pixel_loc in H.
  destruct (aa_loops _ _ _ _ _ _ _ _ _ _ _ _ _) as [s|]; [|discriminate].
  cbn [mbind option_bind] in H.
  destruct (Int.div (res_r s) _) as [qr|] eqn:Hr; [|discriminate].
  cbn [mbind option_bind] in H.
  destruct (Int.div (res_g s) _) as [qg|] eqn:Hg; [|discriminate].
  cbn [mbind option_bind] in H.
  destruct (Int.div (res_b s) _) as [qb|] eqn:Hb; [|discriminate].
  cbn [mbind option_bind] in H.
  exists s, qr, qg, qb. repeat (split; [reflexivity || assumption|]).
  unfold store in H.
  destruct (Z.leb_spec 0 pixel_loc); [|discriminate].
  destruct (Z.ltb_spec pixel_loc (Z.of_nat (length buffer))); [|discriminate].
  injection H as <-. split.
  - apply list_lookup_insert_eq. lia.
  - intros i Hi. apply list_lookup_insert_ne. auto.
Qed.

Lemma accumulate_alpha gid0 gid1 aa_x aa_y s :
  same_colours skytex skytex' -> same_colours spheretex spheretex' ->
  accumulate angles angle_results x_res y_res cx cy skytex spheretex aa
    num_outcomes gid0 gid1 aa_x aa_y s
  = accumulate angles angle_results x_res y_res cx cy skytex' spheretex' aa
      num_outcomes gid0 gid1 aa_x aa_y s.
Proof.
  intros Hsky Hsphere. unfold accumulate, supersample.
  destruct (lookup _ _ _) as [res|]; [|reflexivity].
  cbn [mbind option_bind]. destruct (direction _ _ _ _) as [theta phi].
  destruct (outcome res =? 0); cbn [mbind option_bind].
  - destruct (pixel_from_img_rgb spheretex spheretex' (Float2 theta phi)
                (Hsphere _)) as (-> & -> & ->). reflexivity.
  - destruct (pixel_from_img_rgb skytex skytex' (Float2 (- theta)%f phi)
                (Hsky _)) as (-> & -> & ->). reflexivity.
Qed.

Lemma schwarz_alpha gid0 gid1 buffer :
  same_colours skytex skytex' -> same_colours spheretex spheretex' ->
  schwarz angles angle_results x_res y_res pitch cx cy skytex spheretex aa
    num_outcomes gid0 gid1 buffer
  = schwarz angles angle_results x_res y_res pitch cx cy skytex' spheretex'
      aa num_outcomes gid0 gid1 buffer.
Proof.
  intros Hsky Hsphere. unfold schwarz, final_pixel, aa_loops.
  rewrite (for_loop_ext
    (fun aa_x s => for_loop (Z.to_nat aa) 0
       (accumulate angles angle_results x_res y_res cx cy skytex spheretex
          aa num_outcomes gid0 gid1 aa_x) s)
    (fun aa_x s => for_loop (Z.to_nat aa) 0
       (accumulate angles angle_results x_res y_res cx cy skytex' spheretex'
          aa num_outcomes gid0 gid1 aa_x) s)); [reflexivity|].
  intros aa_x s _. apply for_loop_ext. intros aa_y s' _.
  apply accumulate_alpha; assumption.
Qed.

(** C10: the alpha channel of the textures does not reach the buffer: with
    sky and sphere textures that differ at most in alpha, every work-item,
    and so every run of the kernel, writes the same buffer. *)
Theorem alpha_noninterference (work : list (Z * Z)) (buffer : list Pixel) :
  same_colours skytex skytex' -> same_colours spheretex spheretex' ->
  (forall gid0 gid1 buf,
     schwarz angles angle_results x_res y_res pitch cx cy skytex spheretex
       aa num_outcomes gid0 gid1 buf
     = schwarz angles angle_results x_res y_res pitch cx cy skytex'
         spheretex' aa num_outcomes gid0 gid1 buf)
  /\ nd_range work
       (schwarz angles angle_results x_res y_res pitch cx cy skytex
          spheretex aa num_outcomes) buffer
     = nd_range work
         (schwarz angles angle_results x_res y_res pitch cx cy skytex'
            spheretex' aa num_outcomes) buffer.
Proof.
  intros Hsky Hsphere.
  split; [intros; apply schwarz_alpha; assumption|].
  revert buffer. induction work as [|[gid0 gid1] work IH]; intros buffer.
  - reflexivity.
  - simpl. rewrite (schwarz_alpha gid0 gid1 buffer Hsky Hsphere).
    destruct (schwarz _ _ _ _ _ _ _ _ _ _ _ _ _ _) as [buffer'|];
      [apply IH | reflexivity].
Qed.

End Render.

(** ** Further properties of the two kernels *)

(** *** Reversed rays *)

Lemma opp_involutive x : FP.opp (FP.opp x) = x.
Proof. destruct x; simpl; rewrite ?negb_involutive; reflexivity. Qed.

Lemma mul_opp_opp f x y : FP.mul f (FP.opp x) (FP.opp y) = FP.mul f x y.
Proof. rewrite mul_opp_l, mul_opp_r. apply opp_involutive. Qed.

Lemma mul_mul_opp f c x :
  FP.mul f (FP.mul f c (FP.opp x)) (FP.opp x) = FP.mul f (FP.mul f c x) x.
Proof. rewrite (mul_opp_r f c x). apply mul_opp_opp. Qed.

(** X1. The accelerations of a ray do not change when the ray is reversed:
    [null_dt], [d2r] and [d2theta] give the same [float] for the reversed
    rates [- dr] and [- dtheta] as for [dr] and [dtheta], and [d2r] the same
    for [- dt] as for [dt]. *)
Theorem reversal_symmetry (r dt dr dtheta : spec_float) :
  null_dt r (- dr)%f (- dtheta)%f = null_dt r dr dtheta
  /\ d2r r dt (- dr)%f (- dtheta)%f = d2r r dt dr dtheta
  /\ d2r r (- dt)%f dr dtheta = d2r r dt dr dtheta
  /\ d2theta r (- dr)%f (- dtheta)%f = d2theta r dr dtheta.
Proof.
  unfold null_dt, d2r, d2theta. repeat split.
  - rewrite mul_opp_opp, mul_mul_opp. reflexivity.
  - rewrite !cvt_opp, !mul_mul_opp. reflexivity.
  - rewrite !cvt_opp, !mul_mul_opp. reflexivity.
  - rewrite !cvt_opp, (mul_opp_r lit _ (D dtheta)), mul_opp_opp. reflexivity.
Qed.

(** X2. [d2t] changes sign, and nothing else, when [dr] or [dt] changes sign;
    it is unchanged when both do. *)
Theorem d2t_odd (r dt dr : spec_float) :
  d2t r dt (- dr)%f = (- d2t r dt dr)%f
  /\ d2t r (- dt)%f dr = (- d2t r dt dr)%f
  /\ d2t r (- dt)%f (- dr)%f = d2t r dt dr.
Proof.
  unfold d2t. repeat split.
  - rewrite !cvt_opp, mul_opp_r, mul_opp_l, cvt_opp. reflexivity.
  - rewrite !cvt_opp, mul_opp_r, cvt_opp. reflexivity.
  - rewrite !cvt_opp, (mul_opp_r lit _ (D dr)), mul_opp_opp. reflexivity.
Qed.

(** *** How the loop ends *)


(** *** Rays that differ in [theta] *)

Lemma step_same_orbit s s' : same_orbit s s' -> same_orbit (step s) (step s').
Proof.
  destruct s as [r theta dr dtheta], s' as [r' theta' dr' dtheta'].
  unfold same_orbit. simpl. intros (<- & <- & <-). auto.
Qed.

(** X4. [theta] is carried along and never read back by the integration: two
    rays that start with the same [r], [dr] and [dtheta] have the same [r],
    [dr] and [dtheta] after every step, and leave the loop with the same
    [hit], [r], [dr] and [dtheta], whatever their [theta]. *)
Theorem loop_same_orbit (n : nat) (s s' : ray) :
  same_orbit s s' ->
  (loop n s).2 = (loop n s').2
  /\ same_orbit (loop n s).1 (loop n s').1
  /\ forall k, same_orbit (after k s) (after k s').
Proof.
  intros H. split; [|split].
  - revert s s' H. induction n as [|n IH]; intros s s' H; [reflexivity|].
    rewrite !loop_unfold. pose proof (step_same_orbit s s' H) as Hs.
    unfold fallen, far. destruct Hs as (Hr & _). rewrite <- Hr.
    destruct (FP.leb _ _); [reflexivity|].
    destruct (FP.ltb _ _); [reflexivity|].
    apply IH, step_same_orbit, H.
  - revert s s' H. induction n as [|n IH]; intros s s' H; [exact H|].
    rewrite !loop_unfold. pose proof (step_same_orbit s s' H) as Hs.
    unfold fallen, far. destruct (Hs) as (Hr & _). rewrite <- Hr.
    destruct (FP.leb _ _); [exact Hs|].
    destruct (FP.ltb _ _); [exact Hs|].
    apply IH, Hs.
  - intros k. revert s s' H. induction k as [|k IH]; intros s s' H; [exact H|].
    rewrite !after_succ. apply IH, step_same_orbit, H.
Qed.

(** *** Not-a-number *)

Lemma cvt_nan f : FP.cvt f S754_nan = S754_nan.
Proof. reflexivity. Qed.

Lemma add_nan_l f x : FP.add f S754_nan x = S754_nan.
Proof. reflexivity. Qed.

Lemma add_nan_r f x : FP.add f x S754_nan = S754_nan.
Proof. destruct x; reflexivity. Qed.

Lemma sub_nan_l f x : FP.sub f S754_nan x = S754_nan.
Proof. reflexivity. Qed.

Lemma sub_nan_r f x : FP.sub f x S754_nan = S754_nan.
Proof. destruct x; reflexivity. Qed.

Lemma mul_nan_l f x : FP.mul f S754_nan x = S754_nan.
Proof. reflexivity. Qed.

Lemma mul_nan_r f x : FP.mul f x S754_nan = S754_nan.
Proof. destruct x; reflexivity. Qed.

Lemma div_nan_l f x : FP.div f S754_nan x = S754_nan.
Proof. reflexivity. Qed.

Lemma div_nan_r f x : FP.div f x S754_nan = S754_nan.
Proof. destruct x; reflexivity. Qed.

Lemma sqrt_nan f : FP.sqrt f S754_nan = S754_nan.
Proof. reflexivity. Qed.

Create Rewrite HintDb nan.

#[local] Hint Rewrite cvt_nan add_nan_l add_nan_r sub_nan_l sub_nan_r
  mul_nan_l mul_nan_r div_nan_l div_nan_r sqrt_nan : nan.

Lemma ltb_nan_r x : FP.ltb x S754_nan = false.
Proof. destruct x as [[]|[]| |[] m e]; reflexivity. Qed.

(** A step from a state in which [r], [dr] or [dtheta] is NaN leaves [r]
    NaN. *)
Lemma step_nan s :
  ray_r s = S754_nan \/ ray_dr s = S754_nan \/ ray_dtheta s = S754_nan ->
  ray_r (step s) = S754_nan.
Proof.
  destruct s as [r theta dr dtheta]. cbn [ray_r ray_dr ray_dtheta].
  intros [-> | [-> | ->]]; unfold step, null_dt, d2r, d2theta; cbn [ray_r];
    autorewrite with nan; reflexivity.
Qed.

Lemma nan_run s :
  ray_r s = S754_nan \/ ray_dr s = S754_nan \/ ray_dtheta s = S754_nan ->
  forall k, ray_r (after (S k) s) = S754_nan.
Proof.
  intros H k. induction k as [|k IH].
  - apply step_nan, H.
  - change (after (S (S k)) s) with (step (after (S k) s)).
    apply step_nan. left. exact IH.
Qed.

Lemma crossed_nan s : ray_r s = S754_nan -> crossed s = false.
Proof.
  intros H. unfold crossed, fallen, far. rewrite H, cvt_nan, ltb_nan_r.
  reflexivity.
Qed.

Lemma nan_outcome min max num start_r slot :
  let s0 := initial min max num start_r slot in
  ray_r s0 = S754_nan \/ ray_dr s0 = S754_nan \/ ray_dtheta s0 = S754_nan ->
  (forall k, ray_r (after (S k) s0) = S754_nan)
  /\ loop (Z.to_nat NUM_ITER) s0 = (after (Z.to_nat NUM_ITER) s0, false)
  /\ outcome (ray_outcome min max num start_r slot) = 1.
Proof.
  intros s0 H. pose proof (nan_run s0 H) as Hrun.
  assert (Hloop : loop (Z.to_nat NUM_ITER) s0
                  = (after (Z.to_nat NUM_ITER) s0, false)).
  { apply loop_exhausted. intros j _. apply crossed_nan, Hrun. }
  split; [exact Hrun|]. split; [exact Hloop|].
  unfold ray_outcome. fold s0. rewrite Hloop. apply outcome_record.
Qed.

Lemma div_mul_degenerate x dz :
  FP.is_zero x = true \/ FP.is_finite x = false ->
  (- x * dz / x)%f = S754_nan.
Proof.
  unfold FP.div, FP.mul, FP.opp.
  destruct x as [s|s| |s m e], dz as [s'|s'| |s' m' e']; simpl;
    intros [H | H]; try discriminate; reflexivity.
Qed.

(** X5. A camera at [start_r = 0], at an infinite [start_r] or at a NaN has
    [dr = NaN] from the start: [r] is NaN after every step, neither test of
    the loop ever passes, all [NUM_ITER] iterations run, and the ray is
    recorded as escaped. *)
Theorem degenerate_start (min max : spec_float) (num : Z)
    (start_r : spec_float) (slot : Z) :
  FP.is_zero start_r = true \/ FP.is_finite start_r = false ->
  let s0 := initial min max num start_r slot in
  ray_dr s0 = S754_nan
  /\ (forall k, ray_r (after (S k) s0) = S754_nan)
  /\ loop (Z.to_nat NUM_ITER) s0 = (after (Z.to_nat NUM_ITER) s0, false)
  /\ outcome (ray_outcome min max num start_r slot) = 1.
Proof.
  intros H s0.
  assert (Hdr : ray_dr s0 = S754_nan).
  { unfold s0, initial. cbn [ray_dr]. apply div_mul_degenerate, H. }
  split; [exact Hdr|]. apply nan_outcome. fold s0. auto.
Qed.

(** X6. A table of one ray ([num = 1]) divides 0 by 0 for the fraction of its
    only slot: the aim is NaN, whatever [min] and [max] are, and the ray is
    recorded as escaped, from every [start_r]. *)
Theorem single_ray_table (min max start_r : spec_float) :
  ray_amt min max 1 0 = S754_nan
  /\ loop (Z.to_nat NUM_ITER) (initial min max 1 start_r 0)
     = (after (Z.to_nat NUM_ITER) (initial min max 1 start_r 0), false)
  /\ outcome (ray_outcome min max 1 start_r 0) = 1.
Proof.
  assert (Hamt : ray_amt min max 1 0 = S754_nan).
  { unfold ray_amt.
    change (FP.of_Z binary32 0 / FP.of_Z binary32 (Int.sub 1 1))%f
      with S754_nan.
    autorewrite with nan. reflexivity. }
  split; [exact Hamt|]. apply nan_outcome. right. right.
  unfold initial. cbn [ray_dtheta]. rewrite Hamt.
  autorewrite with nan. reflexivity.
Qed.

(** *** Rays aimed at the hole *)

Lemma mul_zero_or_nan_l f x y :
  zero_or_nan x -> zero_or_nan (FP.mul f x y).
Proof.
  unfold zero_or_nan, FP.mul.
  intros [H | ->]; [|right; reflexivity].
  destruct x as [sx| | |]; try discriminate.
  destruct y as [sy|sy| |sy my ey]; simpl; auto.
Qed.

Lemma mul_zero_or_nan_r f x y :
  zero_or_nan y -> zero_or_nan (FP.mul f x y).
Proof.
  unfold zero_or_nan, FP.mul.
  intros [H | ->]; [|right; destruct x; reflexivity].
  destruct y as [sy| | |]; try discriminate.
  destruct x as [sx|sx| |sx mx ex]; simpl; auto.
Qed.

Lemma div_zero_or_nan f x y :
  zero_or_nan x -> zero_or_nan (FP.div f x y).
Proof.
  unfold zero_or_nan, FP.div.
  intros [H | ->]; [|right; reflexivity].
  destruct x as [sx| | |]; try discriminate.
  destruct y as [sy|sy| |sy my ey]; simpl; auto.
Qed.

Lemma add_zero_or_nan f x y :
  zero_or_nan x -> zero_or_nan y -> zero_or_nan (FP.add f x y).
Proof.
  unfold zero_or_nan, FP.add.
  intros [Hx | ->] [Hy | ->]; try (right; reflexivity).
  - destruct x as [sx| | |], y as [sy| | |]; try discriminate.
    left. destruct sx, sy; reflexivity.
  - right. destruct x; reflexivity.
Qed.

Lemma cvt_zero_or_nan f x : zero_or_nan x -> zero_or_nan (FP.cvt f x).
Proof.
  unfold zero_or_nan. intros [H | ->]; [|right; reflexivity].
  destruct x; try discriminate. left. reflexivity.
Qed.

#[local] Hint Resolve mul_zero_or_nan_l mul_zero_or_nan_r div_zero_or_nan
  add_zero_or_nan cvt_zero_or_nan : opposite.

Lemma ray_amt_direct min max num slot :
  FP.is_zero min = true -> FP.is_zero max = true ->
  zero_or_nan (ray_amt min max num slot).
Proof.
  intros Hmin Hmax. unfold ray_amt.
  assert (zero_or_nan min) by (left; exact Hmin).
  assert (zero_or_nan max) by (left; exact Hmax).
  auto 7 with opposite.
Qed.

Lemma step_radial s : standard -> radial s -> radial (step s).
Proof.
  intros Hstd. destruct s as [r theta dr dtheta]. unfold radial.
  cbn [ray_theta ray_dtheta]. intros [[-> Hz] | [-> ->]].
  - assert (Hd : zero_or_nan
                   (dtheta + TS * d2theta r dr dtheta)%f).
    { unfold d2theta. auto 7 with opposite. }
    unfold step. cbn [ray_theta ray_dtheta].
    destruct Hd as [Hd | Hd].
    + left. split; [|left; exact Hd].
      destruct (dtheta + TS * d2theta r dr dtheta)%f as [sz| | |];
        try discriminate.
      unfold TS, M_PI, c_0_01.
      destruct Hstd as [-> | ->]; destruct sz; reflexivity.
    + right. rewrite Hd. autorewrite with nan. split; reflexivity.
  - right. unfold step. cbn [ray_theta ray_dtheta].
    autorewrite with nan. split; reflexivity.
Qed.

Lemma loop_radial n : forall s,
  standard -> radial s -> radial (loop n s).1.
Proof.
  induction n as [|n IH]; intros s Hstd H; [exact H|].
  rewrite loop_unfold. pose proof (step_radial s Hstd H) as Hs.
  destruct (fallen (step s)); [exact Hs|].
  destruct (far (step s)); [exact Hs|].
  apply IH; assumption.
Qed.

(** X7. A ray aimed at the hole stays on its radius: in a table built with
    [min] and [max] zero, the angular rate of every ray is a zero, or NaN,
    after every step, for every [num], [slot] and [start_r]; and a ray that is
    recorded as captured is recorded at the angle [M_PI/2. - theta] of the
    [theta] it started with, or at NaN. *)
Theorem direct_aim (min max : spec_float) (num : Z) (start_r : spec_float)
    (slot : Z) :
  standard ->
  FP.is_zero min = true -> FP.is_zero max = true ->
  let s0 := initial min max num start_r slot in
  let res := ray_outcome min max num start_r slot in
  (forall k, zero_or_nan (ray_dtheta (after k s0)))
  /\ (outcome res = 0 ->
      angle res = F (M_PI / c_2 - D (F M_PI))%d \/ angle res = S754_nan).
Proof.
  intros Hstd Hmin Hmax s0 res.
  assert (H0 : radial s0).
  { left. split; [reflexivity|]. unfold s0, initial. cbn [ray_dtheta].
    pose proof (ray_amt_direct min max num slot Hmin Hmax).
    auto with opposite. }
  split.
  - intros k.
    assert (Hk : radial (after k s0)).
    { induction k as [|k IH]; [exact H0|].
      change (after (S k) s0) with (step (after k s0)).
      apply step_radial; assumption. }
    destruct Hk as [[_ Hz] | [_ Hn]]; [exact Hz | right; exact Hn].
  - unfold res, ray_outcome. fold s0.
    pose proof (loop_radial (Z.to_nat NUM_ITER) s0 Hstd H0) as Hend.
    destruct (loop (Z.to_nat NUM_ITER) s0) as [[r theta dr dtheta] hit].
    cbn [fst] in Hend. unfold radial in Hend.
    cbn [ray_theta ray_dtheta] in Hend.
    destruct hit; cbn [record outcome angle]; [|discriminate].
    intros _. destruct Hend as [[-> _] | [-> _]]; [left; reflexivity|].
    right. autorewrite with nan. reflexivity.
Qed.

(** *** The two ends of the fan *)


(** *** The radial rate at the start *)


(** ** Work-items *)

Lemma work_items_app {St W : Type} (kernel : W -> St -> option St)
    (work work' : list W) (s : St) :
  work_items kernel (work ++ work') s
  = s' ← work_items kernel work s; work_items kernel work' s'.
Proof.
  revert s. induction work as [|w work IH]; intros s; [reflexivity|].
  simpl. destruct (kernel w s) as [s'|]; [apply IH | reflexivity].
Qed.

(** Work-items that commute two by two can run in any order. *)
Lemma work_items_perm {St W : Type} (kernel : W -> St -> option St)
    (P : W -> Prop) (work work' : list W) :
  (forall w w' s, P w -> P w' ->
     (s' ← kernel w s; kernel w' s') = (s' ← kernel w' s; kernel w s')) ->
  work ≡ₚ work' -> Forall P work ->
  forall s, work_items kernel work s = work_items kernel work' s.
Proof.
  intros Hc Hperm.
  induction Hperm as [|w l l' Hperm IH|w w' l|l l' l'' H1 IH1 H2 IH2];
    intros HP s.
  - reflexivity.
  - simpl. destruct (kernel w s) as [s'|]; [|reflexivity].
    apply IH. inversion HP; assumption.
  - inversion HP as [|? ? Pw' HP']; subst.
    inversion HP' as [|? ? Pw _]; subst.
    pose proof (Hc w w' s Pw Pw') as H. simpl.
    destruct (kernel w s) as [s1|], (kernel w' s) as [s2|];
      cbn [mbind option_bind] in *;
      first [ rewrite H; reflexivity | rewrite <- H; reflexivity
            | reflexivity ].
  - rewrite IH1 by exact HP. apply IH2.
    eapply Permutation_Forall; eassumption.
Qed.

Lemma insert_swap {A : Type} (arr : list A) (i j : Z) (v w : A) :
  0 <= i -> 0 <= j -> (i = j -> v = w) ->
  <[Z.to_nat j := w]> (<[Z.to_nat i := v]> arr)
  = <[Z.to_nat i := v]> (<[Z.to_nat j := w]> arr).
Proof.
  intros Hi Hj Hsame. destruct (Z.eq_dec i j) as [E | E].
  - rewrite (Hsame E). subst j. reflexivity.
  - apply list_insert_insert_ne. lia.
Qed.

(** *** The work-items of [gen_outcomes] *)

Lemma gen_item_commute min max num start_r (i j : Z)
    (t : list spec_float * list Z) :
  let item := gen_item min max num start_r in
  (t' ← item i t; item j t') = (t' ← item j t; item i t').
Proof.
  intros item. unfold item. clear item.
  destruct t as [angles outcomes]. unfold gen_item, gen_outcomes.
  cbn [fst snd].
  set (si := Int.wrap_int i). set (sj := Int.wrap_int j).
  set (ri := ray_outcome min max num start_r si).
  set (rj := ray_outcome min max num start_r sj).
  assert (Ho : si = sj -> outcome ri = outcome rj)
    by (intros E; unfold ri, rj; rewrite E; reflexivity).
  assert (Ha : si = sj -> angle ri = angle rj)
    by (intros E; unfold ri, rj; rewrite E; reflexivity).
  clearbody ri rj. clearbody si sj. unfold store.
  destruct ((0 <=? si) && (si <? Z.of_nat (length outcomes))) eqn:Hoi;
    destruct ((0 <=? si) && (si <? Z.of_nat (length angles))) eqn:Hai;
    destruct ((0 <=? sj) && (sj <? Z.of_nat (length outcomes))) eqn:Hoj;
    destruct ((0 <=? sj) && (sj <? Z.of_nat (length angles))) eqn:Haj;
    cbn [mbind option_bind fst snd];
    rewrite ?length_insert, ?Hoi, ?Hai, ?Hoj, ?Haj; try reflexivity.
  apply andb_prop in Hoi as [Hi _]. apply andb_prop in Hoj as [Hj _].
  apply Z.leb_le in Hi, Hj.
  rewrite (insert_swap angles si sj _ _ Hi Hj Ha).
  rewrite (insert_swap outcomes si sj _ _ Hi Hj Ho).
  reflexivity.
Qed.

(** X10. The work-items of [gen_outcomes] can run in any order: each writes
    its own slot of the two tables, with values that do not depend on the
    tables. *)
Theorem gen_outcomes_order min max num start_r (work work' : list Z)
    (t : list spec_float * list Z) :
  work ≡ₚ work' ->
  work_items (gen_item min max num start_r) work t
  = work_items (gen_item min max num start_r) work' t.
Proof.
  intros Hperm.
  apply (work_items_perm _ (fun _ => True)); [|exact Hperm|].
  - intros w w' s _ _. apply gen_item_commute.
  - apply Forall_forall. auto.
Qed.

Lemma store_next {A : Type} (l1 l : list A) (k : nat) (v : A) :
  length l1 = k -> (k < length l)%nat ->
  store (l1 ++ drop k l) (Z.of_nat k) v = Some ((l1 ++ [v]) ++ drop (S k) l).
Proof.
  intros Hl1 Hk. unfold store.
  rewrite length_app, length_drop, Hl1.
  destruct (Z.leb_spec 0 (Z.of_nat k)); [|lia].
  destruct (Z.ltb_spec (Z.of_nat k) (Z.of_nat (k + (length l - k))));
    [|lia].
  cbn [andb]. f_equal. rewrite Nat2Z.id.
  rewrite insert_app_r_alt by lia. rewrite Hl1, Nat.sub_diag.
  destruct (lookup_lt_is_Some_2 l k Hk) as [x Hx].
  rewrite (drop_S l x k Hx). rewrite <- app_assoc. reflexivity.
Qed.

Lemma gen_outcomes_prefix (angles : list spec_float) (outcomes : list Z)
    min max num start_r (k : nat) :
  length outcomes = length angles ->
  Z.of_nat (length angles) <= Int.INT_MAX ->
  (k <= length angles)%nat ->
  let res := ray_outcome min max num start_r in
  work_items (gen_item min max num start_r) (seqZ 0 (Z.of_nat k))
    (angles, outcomes)
  = Some (((fun i => angle (res i)) <$> seqZ 0 (Z.of_nat k))
            ++ drop k angles,
          ((fun i => outcome (res i)) <$> seqZ 0 (Z.of_nat k))
            ++ drop k outcomes).
Proof.
  intros Hlen Hmax Hk res. induction k as [|k IH]; [reflexivity|].
  rewrite seqZ_S, work_items_app, IH by lia.
  cbn [mbind option_bind work_items]. unfold gen_item, gen_outcomes.
  cbn [fst snd]. rewrite Z.add_0_l.
  rewrite (wrap_int_small (Z.of_nat k)) by int_range.
  rewrite !fmap_app. cbn [fmap list_fmap].
  rewrite store_next;
    [|rewrite length_fmap, length_seqZ; lia | lia].
  rewrite store_next;
    [|rewrite length_fmap, length_seqZ; lia | lia].
  reflexivity.
Qed.

(** X11. After the work-items [0 .. n - 1] have run on tables of [n] entries,
    slot [i] of the tables holds the angle and the outcome of ray [i],
    whatever the tables held before, and every outcome is 0 or 1. *)
Theorem gen_outcomes_fills (angles : list spec_float) (outcomes : list Z)
    min max num start_r :
  length outcomes = length angles ->
  Z.of_nat (length angles) <= Int.INT_MAX ->
  let n := Z.of_nat (length angles) in
  let res := ray_outcome min max num start_r in
  work_items (gen_item min max num start_r) (seqZ 0 n) (angles, outcomes)
  = Some ((fun i => angle (res i)) <$> seqZ 0 n,
          (fun i => outcome (res i)) <$> seqZ 0 n)
  /\ Forall (fun o => o = 0 \/ o = 1)
       ((fun i => outcome (res i)) <$> seqZ 0 n).
Proof.
  intros Hlen Hmax n res. split.
  - unfold n.
    rewrite (gen_outcomes_prefix angles outcomes min max num start_r
               (length angles) Hlen Hmax (le_n _)).
    fold res. rewrite (drop_all angles).
    rewrite (drop_ge outcomes (length angles)) by lia.
    rewrite !app_nil_r. reflexivity.
  - apply Forall_fmap, Forall_forall. intros i _. unfold compose, res.
    unfold ray_outcome. destruct (loop _ _) as [s hit].
    rewrite outcome_record. destruct hit; auto.
Qed.

(** ** The table as [lookup] reads it *)

Lemma load_Some {A : Type} (arr : list A) (i : Z) (v : A) :
  load arr i = Some v ->
  0 <= i < Z.of_nat (length arr) /\ arr !! Z.to_nat i = Some v.
Proof.
  unfold load. destruct (Z.leb_spec 0 i) as [Hi | Hi]; [|discriminate].
  intros H. split; [|exact H]. apply lookup_lt_Some in H. lia.
Qed.

Lemma to_int_Some pos posi :
  FP.to_int pos = Some posi ->
  Int.INT_MIN <= posi <= Int.INT_MAX /\ FP.is_finite pos = true.
Proof.
  unfold FP.to_int. destruct (FP.trunc pos) as [z|] eqn:Ht; [|discriminate].
  destruct (Z.leb_spec Int.INT_MIN z) as [Hlo | Hlo]; [|discriminate].
  destruct (Z.leb_spec z Int.INT_MAX) as [Hhi | Hhi]; [|discriminate].
  intros [= <-]. split; [lia|]. destruct pos; try discriminate; reflexivity.
Qed.

Lemma lookup_outcome (angles : list spec_float) (angle_results : list Z)
    (pos : spec_float) (res : res_t) :
  lookup angles angle_results pos = Some res ->
  exists i, angle_results !! i = Some (outcome res).
Proof.
  unfold lookup. intros H.
  destruct (FP.to_int pos) as [posi|]; [|discriminate].
  cbn [mbind option_bind] in H.
  destruct (load angle_results posi) as [o|] eqn:Ho; [|discriminate].
  destruct (load_Some _ _ _ Ho) as [_ Hl]. exists (Z.to_nat posi).
  cbn [mbind option_bind] in H.
  destruct (load angle_results (Int.add posi 1)) as [z|]; [|discriminate].
  cbn [mbind option_bind] in H.
  destruct (negb (o =? z)), (load angles posi); try discriminate;
    cbn [mbind option_bind] in H.
  - injection H as <-. exact Hl.
  - destruct (load angles (Int.add posi 1)); [|discriminate].
    injection H as <-. exact Hl.
Qed.

(** X12. [lookup] reads slot [posi = (int)pos] of both tables and slot
    [posi + 1] of the outcomes, always: it has a result only for a finite
    [pos] with [0 <= posi] and [posi + 1] inside the table of outcomes, so
    never at the last slot; the outcome it returns is the one of slot [posi],
    and where the outcomes of the two slots agree, slot [posi + 1] of the
    angles is read as well. *)
Theorem lookup_reads (angles : list spec_float) (angle_results : list Z)
    (pos : spec_float) (res : res_t) :
  lookup angles angle_results pos = Some res ->
  exists posi,
    FP.to_int pos = Some posi
    /\ FP.is_finite pos = true
    /\ 0 <= posi
    /\ posi + 1 < Z.of_nat (length angle_results)
    /\ posi < Z.of_nat (length angles)
    /\ angle_results !! Z.to_nat posi = Some (outcome res)
    /\ (angle_results !! Z.to_nat (posi + 1) = Some (outcome res) ->
        posi + 1 < Z.of_nat (length angles)).
Proof.
  unfold lookup. intros H.
  destruct (FP.to_int pos) as [posi|] eqn:Hi; [|discriminate].
  destruct (to_int_Some pos posi Hi) as [Hrange Hfin].
  cbn [mbind option_bind] in H.
  destruct (load angle_results posi) as [o|] eqn:Ho; [|discriminate].
  cbn [mbind option_bind] in H.
  destruct (load angle_results (Int.add posi 1)) as [o1|] eqn:Ho1;
    [|discriminate].
  cbn [mbind option_bind] in H.
  destruct (load_Some _ _ _ Ho) as [Hposi Hl].
  destruct (load_Some _ _ _ Ho1) as [Hnext Hl1].
  assert (Hadd : Int.add posi 1 = posi + 1).
  { destruct (Z.eq_dec posi Int.INT_MAX) as [E | E].
    - exfalso. rewrite E in Hnext. vm_compute in Hnext.
      destruct Hnext as [Hneg _]. apply Hneg. reflexivity.
    - unfold Int.add. apply wrap_int_small. int_range. }
  rewrite Hadd in *.
  exists posi. split; [reflexivity|]. split; [exact Hfin|].
  split; [lia|]. split; [lia|].
  destruct (Z.eqb_spec o o1) as [E | E]; cbn [negb] in H.
  - destruct (load angles posi) as [a0|] eqn:Ha; [|discriminate].
    cbn [mbind option_bind] in H.
    destruct (load angles (posi + 1)) as [a1|] eqn:Ha1; [|discriminate].
    injection H as <-. cbn [outcome].
    destruct (load_Some _ _ _ Ha) as [Hp _].
    destruct (load_Some _ _ _ Ha1) as [Hp1 _].
    split; [lia|]. split; [exact Hl|]. intros _. lia.
  - destruct (load angles posi) as [a0|] eqn:Ha; [|discriminate].
    injection H as <-. cbn [outcome].
    destruct (load_Some _ _ _ Ha) as [Hp _].
    split; [lia|]. split; [exact Hl|]. intros Hsame. congruence.
Qed.

(** X13. The table the integrator fills, as the renderer reads it: after the
    work-items [0 .. n - 1] of [gen_outcomes], [lookup] at a position inside
    slot [posi] returns the outcome of ray [posi], and, where ray [posi + 1]
    has the other outcome, the angle of ray [posi] as well. *)
Theorem table_round_trip (angles : list spec_float) (outcomes : list Z)
    min max num start_r (pos : spec_float) (posi : Z) :
  length outcomes = length angles ->
  Z.of_nat (length angles) <= Int.INT_MAX ->
  FP.floor pos = Some posi ->
  0 <= posi <= Z.of_nat (length angles) - 2 ->
  let n := Z.of_nat (length angles) in
  let ray := ray_outcome min max num start_r in
  exists t res,
    work_items (gen_item min max num start_r) (seqZ 0 n) (angles, outcomes)
    = Some t
    /\ lookup t.1 t.2 pos = Some res
    /\ outcome res = outcome (ray posi)
    /\ (outcome (ray posi) <> outcome (ray (posi + 1)) ->
        angle res = angle (ray posi)).
Proof.
  intros Hlen Hmax Hfloor Hposi n ray.
  pose proof (gen_outcomes_prefix angles outcomes min max num start_r
                (length angles) Hlen Hmax (le_n _)) as Hrun.
  cbv zeta in Hrun. fold n ray in Hrun.
  rewrite (drop_all angles) in Hrun.
  rewrite (drop_ge outcomes (length angles)) in Hrun by lia.
  rewrite !app_nil_r in Hrun.
  eexists. rewrite Hrun.
  set (ta := (fun i => angle (ray i)) <$> seqZ 0 n).
  set (to := (fun i => outcome (ray i)) <$> seqZ 0 n).
  assert (Hla : length ta = length angles).
  { unfold ta. rewrite length_fmap, length_seqZ. unfold n. lia. }
  assert (Hlo : length to = length ta).
  { unfold to, ta. rewrite !length_fmap. reflexivity. }
  destruct (lookup_in_range ta to pos posi Hlo) as
    (a0 & a1 & o0 & o1 & Ha0 & Ha1 & Ho0 & Ho1 & Hlook);
    [lia | exact Hfloor | lia |].
  assert (Hat : forall j, 0 <= j < n ->
    ta !! Z.to_nat j = Some (angle (ray j))
    /\ to !! Z.to_nat j = Some (outcome (ray j))).
  { intros j Hj. unfold ta, to. rewrite !list_lookup_fmap.
    rewrite (lookup_seqZ_lt 0 n (Z.to_nat j)) by lia.
    rewrite Z.add_0_l, Z2Nat.id by lia. split; reflexivity. }
  destruct (Hat posi ltac:(unfold n; lia)) as [Ea0 Eo0].
  destruct (Hat (posi + 1) ltac:(unfold n; lia)) as [Ea1 Eo1].
  rewrite Ea0 in Ha0. rewrite Eo0 in Ho0. rewrite Eo1 in Ho1.
  injection Ha0 as <-. injection Ho0 as <-. injection Ho1 as <-.
  eexists. split; [reflexivity|]. cbn [fst snd]. split; [exact Hlook|].
  cbn [outcome angle]. split; [reflexivity|].
  intros Hne. apply Z.eqb_neq in Hne. rewrite Hne. reflexivity.
Qed.

(** ** The renderer, further *)

Section Image.

Variables (angles : list spec_float) (angle_results : list Z).
Variables (x_res y_res pitch : Z) (cx cy : spec_float).
Variable num_outcomes : Z.

Abbreviation supersample' :=
  (supersample angles angle_results x_res y_res cx cy).
Abbreviation final_pixel' :=
  (final_pixel angles angle_results x_res y_res cx cy).
Abbreviation schwarz' :=
  (schwarz angles angle_results x_res y_res pitch cx cy).

Lemma div_by_zero f x s : FP.is_finite (FP.div f x (S754_zero s)) = false.
Proof. unfold FP.div. destruct x; reflexivity. Qed.

Lemma cvt_not_finite f x :
  FP.is_finite x = false -> FP.is_finite (FP.cvt f x) = false.
Proof. destruct x; try discriminate; reflexivity. Qed.

(** X14. A screen less than two pixels wide has no finite sample point: both
    coordinates are divided by [(float)(x_res/2)], which is 0 for [x_res] 0 or
    1, so they are infinite or NaN, for every pixel and supersample. *)
Theorem narrow_screen (aa gid0 gid1 aa_x aa_y : Z) :
  0 <= x_res < 2 ->
  let p := sample_point x_res y_res aa gid0 gid1 aa_x aa_y in
  FP.is_finite (f2x p) = false /\ FP.is_finite (f2y p) = false.
Proof.
  intros Hx p. unfold p, sample_point. cbn [f2x f2y].
  rewrite (Z.div_small x_res 2 Hx).
  change (D (FP.of_Z binary32 0)) with (S754_zero false).
  split; apply cvt_not_finite, div_by_zero.
Qed.

(** X15. With [aa <= 0] neither loop runs a single time and neither the table
    nor a texture is read: the accumulators stay 0, and the kernel stores a
    black pixel, except where [aa * aa] is 0 as an [int] (for 0, and for a
    multiple of 65536), where the division has no result. *)
Theorem no_supersamples (skytex spheretex : image2d_t) (aa gid0 gid1 : Z)
    (buffer : list Pixel) :
  aa <= 0 ->
  aa_loops angles angle_results x_res y_res cx cy skytex spheretex aa
    num_outcomes gid0 gid1 (Acc 0 0 0) = Some (Acc 0 0 0)
  /\ final_pixel' skytex spheretex aa num_outcomes gid0 gid1
     = (if Int.mul aa aa =? 0 then None else Some (mkPixel 0 0 0 0))
  /\ schwarz' skytex spheretex aa num_outcomes gid0 gid1 buffer
     = (if Int.mul aa aa =? 0 then None
        else store buffer (Int.wrap_int (gid0 + gid1 * pitch))
               (mkPixel 0 0 0 0)).
Proof.
  intros Haa.
  assert (Hloops :
    aa_loops angles angle_results x_res y_res cx cy skytex spheretex aa
      num_outcomes gid0 gid1 (Acc 0 0 0) = Some (Acc 0 0 0)).
  { unfold aa_loops. rewrite (Z2Nat.nonpos aa Haa). reflexivity. }
  assert (Hpx : final_pixel' skytex spheretex aa num_outcomes gid0 gid1
                = (if Int.mul aa aa =? 0 then None
                   else Some (mkPixel 0 0 0 0))).
  { unfold final_pixel. rewrite Hloops. cbn [mbind option_bind res_r res_g
      res_b]. unfold Int.div. destruct (Int.mul aa aa =? 0); reflexivity. }
  split; [exact Hloops|]. split; [exact Hpx|].
  unfold schwarz. rewrite Hpx. destruct (Int.mul aa aa =? 0); reflexivity.
Qed.

(** X16. With [aa = 1] there is one sample per pixel, the supersample
    [(0, 0)], and it is stored unchanged: its blue in [a], its green in [r],
    its red in [g], and 0 in [b]; where that sample has no result the pixel
    has none. *)
Theorem single_sample (skytex spheretex : image2d_t) (gid0 gid1 : Z) :
  final_pixel' skytex spheretex 1 num_outcomes gid0 gid1
  = px ← supersample' skytex spheretex 1 num_outcomes gid0 gid1 0 0;
    Some (mkPixel (b px) (g px) (r px) 0).
Proof.
  unfold final_pixel, aa_loops. change (Z.to_nat 1) with 1%nat.
  cbn [for_loop]. unfold accumulate.
  destruct (supersample _ _ _ _ _ _ _ _ _ _ _ _ _ _) as [px|] eqn:Hs;
    [|reflexivity].
  destruct (supersample_range _ _ _ _ _ _ _ _ _ _ _ _ _ _ px Hs)
    as (Hr & Hg & Hb).
  cbn [mbind option_bind res_r res_g res_b]. unfold Int.add. rewrite !Z.add_0_l.
  rewrite !wrap_int_small by int_range.
  change (Int.mul 1 1) with 1. unfold Int.div. cbn [Z.eqb].
  rewrite !Z.quot_1_r. cbn [mbind option_bind].
  rewrite !wrap_int_small by int_range.
  rewrite !wrap_uchar_small by lia. reflexivity.
Qed.

Lemma supersample_sky (skytex spheretex spheretex' : image2d_t)
    (aa gid0 gid1 aa_x aa_y : Z) :
  Forall (fun o => o <> 0) angle_results ->
  supersample' skytex spheretex aa num_outcomes gid0 gid1 aa_x aa_y
  = supersample' skytex spheretex' aa num_outcomes gid0 gid1 aa_x aa_y.
Proof.
  intros Hall. unfold supersample.
  destruct (lookup _ _ _) as [res|] eqn:Hl; [|reflexivity].
  destruct (lookup_outcome _ _ _ _ Hl) as [i Hi].
  pose proof (proj1 (Forall_lookup _ _) Hall i _ Hi) as Hne.
  cbn [mbind option_bind]. destruct (direction _ _ _ _) as [theta phi].
  destruct (Z.eqb_spec (outcome res) 0); [contradiction | reflexivity].
Qed.

Lemma supersample_sphere (skytex skytex' spheretex : image2d_t)
    (aa gid0 gid1 aa_x aa_y : Z) :
  Forall (fun o => o = 0) angle_results ->
  supersample' skytex spheretex aa num_outcomes gid0 gid1 aa_x aa_y
  = supersample' skytex' spheretex aa num_outcomes gid0 gid1 aa_x aa_y.
Proof.
  intros Hall. unfold supersample.
  destruct (lookup _ _ _) as [res|] eqn:Hl; [|reflexivity].
  destruct (lookup_outcome _ _ _ _ Hl) as [i Hi].
  pose proof (proj1 (Forall_lookup _ _) Hall i _ Hi) as He.
  cbn [mbind option_bind]. destruct (direction _ _ _ _) as [theta phi].
  cbn beta in He. rewrite He. reflexivity.
Qed.

Lemma final_pixel_ext (skytex spheretex skytex' spheretex' : image2d_t)
    (aa gid0 gid1 : Z) :
  (forall aa_x aa_y,
     supersample' skytex spheretex aa num_outcomes gid0 gid1 aa_x aa_y
     = supersample' skytex' spheretex' aa num_outcomes gid0 gid1 aa_x aa_y) ->
  final_pixel' skytex spheretex aa num_outcomes gid0 gid1
  = final_pixel' skytex' spheretex' aa num_outcomes gid0 gid1.
Proof.
  intros H. unfold final_pixel, aa_loops.
  rewrite (for_loop_ext
    (fun aa_x s => for_loop (Z.to_nat aa) 0
       (accumulate angles angle_results x_res y_res cx cy skytex spheretex
          aa num_outcomes gid0 gid1 aa_x) s)
    (fun aa_x s => for_loop (Z.to_nat aa) 0
       (accumulate angles angle_results x_res y_res cx cy skytex' spheretex'
          aa num_outcomes gid0 gid1 aa_x) s)); [reflexivity|].
  intros aa_x s _. apply for_loop_ext. intros aa_y s' _.
  unfold accumulate. rewrite H. reflexivity.
Qed.

(** X17. Which texture a pixel shows is decided by the outcome looked up, and
    only the chosen texture is sampled: with a table that holds no captured
    ray (no outcome 0) the kernel writes the same buffer for every sphere
    texture, and with a table of captured rays only, for every sky texture. *)
Theorem texture_choice (skytex skytex' spheretex spheretex' : image2d_t)
    (aa gid0 gid1 : Z) (buffer : list Pixel) :
  (Forall (fun o => o <> 0) angle_results ->
   schwarz' skytex spheretex aa num_outcomes gid0 gid1 buffer
   = schwarz' skytex spheretex' aa num_outcomes gid0 gid1 buffer)
  /\ (Forall (fun o => o = 0) angle_results ->
      schwarz' skytex spheretex aa num_outcomes gid0 gid1 buffer
      = schwarz' skytex' spheretex aa num_outcomes gid0 gid1 buffer).
Proof.
  split; intros Hall; unfold schwarz.
  - rewrite (final_pixel_ext skytex spheretex skytex spheretex');
      [reflexivity|].
    intros aa_x aa_y. apply supersample_sky, Hall.
  - rewrite (final_pixel_ext skytex spheretex skytex' spheretex);
      [reflexivity|].
    intros aa_x aa_y. apply supersample_sphere, Hall.
Qed.

Lemma store_store {A : Type} (arr : list A) (i j : Z) (v w : A) :
  (i = j -> v = w) ->
  (arr' ← store arr i v; store arr' j w)
  = (arr' ← store arr j w; store arr' i v).
Proof.
  intros Hsame. unfold store.
  destruct ((0 <=? i) && (i <? Z.of_nat (length arr))) eqn:Hi;
    destruct ((0 <=? j) && (j <? Z.of_nat (length arr))) eqn:Hj;
    cbn [mbind option_bind]; rewrite ?length_insert, ?Hi, ?Hj;
    try reflexivity.
  apply andb_prop in Hi as [Hi _]. apply andb_prop in Hj as [Hj _].
  apply Z.leb_le in Hi, Hj. f_equal. apply insert_swap; assumption.
Qed.

Lemma store_Some {A : Type} (arr arr' : list A) (i : Z) (v : A) :
  store arr i v = Some arr' ->
  0 <= i < Z.of_nat (length arr) /\ arr' = <[Z.to_nat i := v]> arr.
Proof.
  unfold store. destruct (Z.leb_spec 0 i) as [Hi | Hi]; [|discriminate].
  destruct (Z.ltb_spec i (Z.of_nat (length arr))) as [Hlt | Hlt];
    [|discriminate].
  intros [= <-]. split; [lia | reflexivity].
Qed.

Lemma in_row_inj (w w' : Z * Z) :
  in_row pitch w -> in_row pitch w' ->
  w.1 + w.2 * pitch = w'.1 + w'.2 * pitch -> w = w'.
Proof.
  destruct w as [g0 g1], w' as [h0 h1]. unfold in_row. cbn [fst snd].
  intros (Hg0 & Hg1 & _) (Hh0 & Hh1 & _) Heq.
  assert (E : g1 = h1) by nia. subst h1. f_equal. lia.
Qed.

Lemma in_row_loc (w : Z * Z) :
  in_row pitch w -> Int.wrap_int (w.1 + w.2 * pitch) = w.1 + w.2 * pitch.
Proof.
  intros (H0 & H1 & Hm). apply wrap_int_small.
  unfold Int.INT_MIN, Int.INT_MAX in *. nia.
Qed.

Lemma nd_range_items (work : list (Z * Z))
    (kernel : Z -> Z -> list Pixel -> option (list Pixel))
    (buffer : list Pixel) :
  nd_range work kernel buffer
  = work_items (fun w => kernel w.1 w.2) work buffer.
Proof.
  revert buffer. induction work as [|[g0 g1] work IH]; intros buffer;
    [reflexivity|].
  simpl. destruct (kernel g0 g1 buffer); [apply IH | reflexivity].
Qed.

Section Frame.

Variables (skytex spheretex : image2d_t) (aa : Z).

Abbreviation kernel := (schwarz' skytex spheretex aa num_outcomes).
Abbreviation pixel_of := (final_pixel' skytex spheretex aa num_outcomes).

Lemma schwarz_commute (w w' : Z * Z) (buffer : list Pixel) :
  in_row pitch w -> in_row pitch w' ->
  (buffer' ← kernel w.1 w.2 buffer; kernel w'.1 w'.2 buffer')
  = (buffer' ← kernel w'.1 w'.2 buffer; kernel w.1 w.2 buffer').
Proof.
  intros Hw Hw'. unfold schwarz.
  destruct (pixel_of w.1 w.2) as [px|] eqn:Hpx;
    destruct (pixel_of w'.1 w'.2) as [px'|] eqn:Hpx';
    cbn [mbind option_bind].
  - apply store_store. intros Hloc.
    assert (E : w = w').
    { apply in_row_inj; [exact Hw | exact Hw' |].
      rewrite (in_row_loc w Hw), (in_row_loc w' Hw') in Hloc. exact Hloc. }
    subst w'. congruence.
  - destruct (store buffer _ px); reflexivity.
  - destruct (store buffer _ px'); reflexivity.
  - reflexivity.
Qed.

(** X18. The work-items of a launch can run in any order, as long as each lies
    within a row of the buffer ([gid0 < pitch]): no two of them write the same
    pixel, and none reads the buffer. *)
Theorem schwarz_order (work work' : list (Z * Z)) (buffer : list Pixel) :
  work ≡ₚ work' ->
  Forall (in_row pitch) work ->
  nd_range work kernel buffer = nd_range work' kernel buffer.
Proof.
  intros Hperm Hrows. rewrite !nd_range_items.
  apply (work_items_perm _ (in_row pitch)); [|exact Hperm|exact Hrows].
  intros w w' s Hw Hw'. apply schwarz_commute; assumption.
Qed.

(** X19. The image a launch leaves: the buffer keeps its length, every
    work-item's pixel [final_pixel] is at [gid0 + gid1 * pitch], and every
    other entry of the buffer (the padding of the rows) is as it was. *)
Theorem schwarz_image (work : list (Z * Z)) (buffer buffer' : list Pixel) :
  Forall (in_row pitch) work ->
  nd_range work kernel buffer = Some buffer' ->
  length buffer' = length buffer
  /\ (forall gid0 gid1, (gid0, gid1) ∈ work ->
        buffer' !! Z.to_nat (gid0 + gid1 * pitch) = pixel_of gid0 gid1
        /\ is_Some (pixel_of gid0 gid1))
  /\ (forall i,
        (forall gid0 gid1, (gid0, gid1) ∈ work ->
           Z.to_nat (gid0 + gid1 * pitch) <> i) ->
        buffer' !! i = buffer !! i).
Proof.
  revert buffer. induction work as [|[g0 g1] work IH]; intros buffer Hrows H.
  - injection H as <-. split; [reflexivity|]. split; [|reflexivity].
    intros gid0 gid1 Hin. inversion Hin.
  - inversion Hrows as [|? ? Hrow Hrows']; subst.
    cbn [nd_range] in H.
    destruct (kernel g0 g1 buffer) as [b1|] eqn:Hk; [|discriminate].
    cbn [mbind option_bind] in H.
    destruct (IH b1 Hrows' H) as (Hlen & Hpix & Hrest).
    unfold schwarz in Hk.
    destruct (pixel_of g0 g1) as [px|] eqn:Hpx; [|discriminate].
    cbn [mbind option_bind] in Hk.
    destruct (store_Some _ _ _ _ Hk) as [Hloc ->].
    pose proof (in_row_loc (g0, g1) Hrow) as Hw. cbn [fst snd] in Hw.
    rewrite Hw in *. rewrite length_insert in Hlen.
    split; [exact Hlen|]. split.
    + intros gid0 gid1 Hin.
      destruct (decide ((gid0, gid1) ∈ work)) as [Hin' | Hout];
        [exact (Hpix gid0 gid1 Hin')|].
      apply elem_of_cons in Hin as [E | Hin]; [|contradiction].
      injection E as -> ->. rewrite Hpx. split; [|eauto].
      rewrite Hrest.
      * apply list_lookup_insert_eq. lia.
      * intros h0 h1 Hh Heq.
        pose proof (proj1 (Forall_forall _ _) Hrows' _ Hh) as Hrow'.
        assert (E : (g0, g1) = (h0, h1)).
        { apply in_row_inj; [exact Hrow | exact Hrow' |].
          destruct Hrow as (? & ? & ?), Hrow' as (? & ? & ?).
          cbn [fst snd] in *. nia. }
        injection E as -> ->. contradiction.
    + intros i Hi. rewrite Hrest.
      * apply list_lookup_insert_ne. apply (Hi g0 g1). left.
      * intros h0 h1 Hh. apply Hi. right. exact Hh.
Qed.

End Frame.

End Image.

End Kernels.

(** ** The statements at sample inputs *)

Import Sample.

Abbreviation gen_outcomes_dev lit :=
  (gen_outcomes lit Device.sin Device.cos Device.atan2).
Abbreviation ray_outcome_dev lit :=
  (ray_outcome lit Device.sin Device.cos Device.atan2).
Abbreviation supersample_dev lit :=
  (supersample lit Device.sin Device.cos Device.acos Device.atan2
     Device.vlength Device.image2d_t Device.read_imagef).
Abbreviation aa_loops_dev lit :=
  (aa_loops lit Device.sin Device.cos Device.acos Device.atan2
     Device.vlength Device.image2d_t Device.read_imagef).
Abbreviation final_pixel_dev lit :=
  (final_pixel lit Device.sin Device.cos Device.acos Device.atan2
     Device.vlength Device.image2d_t Device.read_imagef).
Abbreviation schwarz_dev lit :=
  (schwarz lit Device.sin Device.cos Device.acos Device.atan2
     Device.vlength Device.image2d_t Device.read_imagef).

Lemma gen_outcomes_outcome_witness :
  0 <= 2 < Z.of_nat (length angles3)
  /\ length outcomes3 = length angles3
  /\ Z.of_nat (length angles3) <= Int.INT_MAX
  /\ gen_outcomes_dev binary32 angles3 outcomes3 (FP.opp one) one 3 r21 2
     = Some (<[2%nat := S754_finite true 12761419 (-23)]> angles3,
             <[2%nat := 0]> outcomes3)
  /\ gen_outcomes_dev binary32 angles3 outcomes3 (FP.opp hundred) hundred 3
       r499 2
     = Some (<[2%nat := S754_finite false 15636037 (-30)]> angles3,
             <[2%nat := 1]> outcomes3)
  /\ exists lost,
       gen_outcomes_dev binary32 angles3 outcomes3 (FP.opp one) one 3
         FP.zero 2
       = Some (<[2%nat := lost]> angles3, <[2%nat := 1]> outcomes3).
Proof.
  assert (H1 : 0 <= 2 < Z.of_nat (length angles3)) by (simpl; lia).
  assert (H2 : length outcomes3 = length angles3) by reflexivity.
  assert (H3 : Z.of_nat (length angles3) <= Int.INT_MAX)
    by int_range.
  do 3 (split; [assumption|]).
  split; [|split].
  - (* captured, after 99 steps, away from the axis *)
    destruct (gen_outcomes_outcome binary32 Device.sin Device.cos
                Device.atan2 angles3 outcomes3 (FP.opp one) one 3 r21 2
                H1 H2 H3)
      as (_ & res & Hres & Hcaptured & _).
    assert (Hrun : clear_run binary32 98
                     (initial binary32 (FP.opp one) one 3 r21 2) = true)
      by (vm_compute; reflexivity).
    destruct (Hcaptured 98%nat) as [Hout Hang].
    + lia.
    + intros j Hj. apply orb_false_elim.
      exact (clear_run_spec binary32 98 _ Hrun j Hj).
    + vm_compute. reflexivity.
    + rewrite Hres, Hout, Hang. vm_compute. reflexivity.
  - (* escaped, after 38 steps *)
    destruct (gen_outcomes_outcome binary32 Device.sin Device.cos
                Device.atan2 angles3 outcomes3 (FP.opp hundred) hundred 3
                r499 2 H1 H2 H3)
      as (_ & res & Hres & _ & Hescaped & _).
    assert (Hrun : clear_run binary32 37
                     (initial binary32 (FP.opp hundred) hundred 3 r499 2)
                   = true)
      by (vm_compute; reflexivity).
    destruct (Hescaped 37%nat) as [Hout Hang].
    + lia.
    + intros j Hj. apply orb_false_elim.
      exact (clear_run_spec binary32 37 _ Hrun j Hj).
    + vm_compute. reflexivity.
    + vm_compute. reflexivity.
    + rewrite Hres, Hout, Hang. vm_compute. reflexivity.
  - (* no test passes: the budget runs out *)
    destruct (gen_outcomes_outcome binary32 Device.sin Device.cos
                Device.atan2 angles3 outcomes3 (FP.opp one) one 3 FP.zero 2
                H1 H2 H3)
      as (_ & res & Hres & _ & _ & Hexhausted).
    assert (Hnan : forall k,
      ray_r (after binary32 (S k)
               (initial binary32 (FP.opp one) one 3 FP.zero 2)) = S754_nan).
    { apply nan_run. right. left. reflexivity. }
    destruct Hexhausted as [Hout _].
    + intros j Hj. apply orb_false_elim.
      exact (crossed_nan binary32 _ (Hnan j)).
    + exists (angle res). rewrite Hres, Hout. reflexivity.
Defined.

Lemma initial_state_witness :
  2 <= 3 <= Int.INT_MAX
  /\ initial binary32 (FP.opp one) one 3 r21 1
     = Ray r21 (S754_finite false 13176795 (-22)) (FP.opp one) (S754_zero true).
Proof.
  assert (H : 2 <= 3 <= Int.INT_MAX) by int_range.
  split; [exact H|].
  destruct (initial_state binary32 (FP.opp one) one 3 r21 1 H)
    as (_ & Hinit & _).
  rewrite Hinit. vm_compute. reflexivity.
Defined.

Lemma lookup_interpolates_witness :
  length outcomes3 = length angles3
  /\ Z.of_nat (length angles3) <= Int.INT_MAX
  /\ FP.floor half = Some 0
  /\ 0 <= 0 <= Z.of_nat (length angles3) - 2
  /\ lookup binary32 angles3 outcomes3 half
     = Some (mkRes (f32 3 8) 1).
Proof.
  assert (H1 : length outcomes3 = length angles3) by reflexivity.
  assert (H2 : Z.of_nat (length angles3) <= Int.INT_MAX)
    by int_range.
  assert (H3 : FP.floor half = Some 0) by reflexivity.
  assert (H4 : 0 <= 0 <= Z.of_nat (length angles3) - 2) by (simpl; lia).
  repeat (split; [assumption|]).
  destruct (lookup_interpolates binary32 angles3 outcomes3 half 0 H1 H2 H3 H4)
    as (a0 & a1 & o0 & o1 & res & Ha0 & Ha1 & Ho0 & Ho1 & Hlk & Hout & _ & Hmix
        & _).
  injection Ha0 as <-. injection Ha1 as <-.
  injection Ho0 as <-. injection Ho1 as <-.
  rewrite Hlk. f_equal. destruct res as [ang out]. simpl in *.
  rewrite Hout, (Hmix eq_refl). vm_compute. reflexivity.
Defined.


Lemma lookup_at_slot_witness :
  standard binary32
  /\ Forall is_float angles3
  /\ length outcomes3 = length angles3
  /\ Z.of_nat (length angles3) <= Int.INT_MAX
  /\ FP.floor FP.zero = Some 0
  /\ FP.is_zero (FP.sub binary32 FP.zero (FP.of_Z binary32 0)) = true
  /\ 0 <= 0 <= Z.of_nat (length angles3) - 2
  /\ exists res,
       lookup binary32 angles3 outcomes3 FP.zero = Some res
       /\ outcome res = 1
       /\ same_number (angle res) (f32 1 4).
Proof.
  assert (H0 : standard binary32) by (left; reflexivity).
  assert (H1 : Forall is_float angles3) by (repeat constructor).
  assert (H2 : length outcomes3 = length angles3) by reflexivity.
  assert (H3 : Z.of_nat (length angles3) <= Int.INT_MAX)
    by int_range.
  assert (H4 : FP.floor FP.zero = Some 0) by reflexivity.
  assert (H5 : FP.is_zero (FP.sub binary32 FP.zero (FP.of_Z binary32 0)) = true)
    by reflexivity.
  assert (H6 : 0 <= 0 <= Z.of_nat (length angles3) - 2) by (simpl; lia).
  repeat (split; [assumption|]).
  destruct (lookup_at_slot binary32 angles3 outcomes3 FP.zero 0
              H0 H1 H2 H3 H4 H5 H6)
    as (a0 & a1 & o0 & o1 & res & Ha0 & Ha1 & Ho0 & Ho1 & Hlk & Hout & Hsame).
  injection Ha0 as <-. injection Ha1 as <-.
  injection Ho0 as <-. injection Ho1 as <-.
  exists res. split; [exact Hlk|]. split; [exact Hout|].
  apply Hsame. right. reflexivity.
Defined.

(** C6 as the spec has it fails when the angle of the next slot is not
    finite: at position 0, between two escaping rays, the blend
    [(1 - 0) * 1 + 0 * NaN] is NaN and not the angle 1 of slot 0.  And where
    the angle of slot 0 is [-0] the blend with a finite neighbour is [+0]:
    the same number, in another float. *)
Lemma lookup_not_exact :
  FP.floor FP.zero = Some 0
  /\ FP.is_zero (FP.sub binary32 FP.zero (FP.of_Z binary32 0)) = true
  /\ angles_nan !! 0%nat = Some one
  /\ lookup binary32 angles_nan outcomes_nan FP.zero = Some (mkRes S754_nan 1)
  /\ lookup binary64 angles_nan outcomes_nan FP.zero = Some (mkRes S754_nan 1)
  /\ FP.eqb S754_nan one = false
  /\ lookup binary32 [S754_zero true; one] [1; 1] FP.zero
     = Some (mkRes (S754_zero false) 1).
Proof.
  do 6 (split; [vm_compute; reflexivity|]). vm_compute. reflexivity.
Qed.



(** In a table of four rays with [min = -1] and [max = 1] the rays of slots
    1 and 2 are not aimed at opposite amounts: [i / (num - 1)] and
    [1 - i / (num - 1)] are rounded apart. *)
Lemma ray_amt_not_opposite :
  ray_amt binary32 (FP.opp one) one 4 1 = S754_finite true 11184809 (-25)
  /\ ray_amt binary32 (FP.opp one) one 4 2 = S754_finite false 11184812 (-25)
  /\ ray_amt binary64 (FP.opp one) one 4 1 = S754_finite true 11184810 (-25)
  /\ ray_amt binary64 (FP.opp one) one 4 2 = S754_finite false 11184812 (-25).
Proof.
  do 3 (split; [vm_compute; reflexivity|]). vm_compute. reflexivity.
Qed.

Lemma antialias_average_witness :
  let smp (aa_x aa_y : Z) :=
    if aa_y =? 0 then mkPixel 255 255 0 0 else mkPixel 255 0 127 63 in
  1 <= 2 <= Int.INT_MAX
  /\ Int.mul 2 2 <> 0
  /\ (forall aa_x aa_y, 0 <= aa_x < 2 -> 0 <= aa_y < 2 ->
        supersample_dev binary32 angles8 outcomes8 2 2 FP.zero cy600
          (two_tone one) (flat one one one one) 2 8 1 1 aa_x aa_y
        = Some (smp aa_x aa_y))
  /\ final_pixel_dev binary32 angles8 outcomes8 2 2 FP.zero cy600
       (two_tone one) (flat one one one one) 2 8 1 1
     = Some (mkPixel 31 63 127 0).
Proof.
  cbv zeta.
  assert (H1 : 1 <= 2 <= Int.INT_MAX) by int_range.
  assert (H2 : Int.mul 2 2 <> 0) by (vm_compute; discriminate).
  assert (H3 : forall aa_x aa_y, 0 <= aa_x < 2 -> 0 <= aa_y < 2 ->
    supersample_dev binary32 angles8 outcomes8 2 2 FP.zero cy600
      (two_tone one) (flat one one one one) 2 8 1 1 aa_x aa_y
    = Some (if aa_y =? 0 then mkPixel 255 255 0 0 else mkPixel 255 0 127 63)).
  { intros aa_x aa_y Hx Hy.
    assert (Ex : aa_x = 0 \/ aa_x = 1) by lia.
    assert (Ey : aa_y = 0 \/ aa_y = 1) by lia.
    destruct Ex as [-> | ->], Ey as [-> | ->]; vm_compute; reflexivity. }
  repeat (split; [assumption|]).
  destruct (antialias_average binary32 Device.sin Device.cos Device.acos
              Device.atan2 Device.vlength Device.image2d_t Device.read_imagef
              angles8 outcomes8 2 2 FP.zero cy600 (two_tone one)
              (flat one one one one) 2 8 1 1 _ H1 H2 H3)
    as (_ & _ & Hexact).
  destruct (Hexact ltac:(lia)) as [Hpx _].
  rewrite Hpx. vm_compute. reflexivity.
Defined.

(** C9 as the spec has it fails at [aa = 65536]: [aa * aa] is 0 in [int]
    arithmetic, and the three divisions have no defined result. *)
Lemma average_undefined :
  1 <= 65536 <= Int.INT_MAX
  /\ Int.mul 65536 65536 = 0
  /\ final_pixel_dev binary32 angles8 outcomes8 2 2 FP.zero cy600
       (two_tone one) (flat one one one one) 65536 8 1 1
     = None
  /\ schwarz_dev binary32 angles8 outcomes8 2 2 2 FP.zero cy600
       (two_tone one) (flat one one one one) 65536 8 1 1 frame
     = None.
Proof.
  assert (Hpx : final_pixel_dev binary32 angles8 outcomes8 2 2 FP.zero cy600
                  (two_tone one) (flat one one one one) 65536 8 1 1 = None).
  { unfold final_pixel. destruct (aa_loops _ _ _ _ _ _ _ _ _ _ _ _ _ _ _ _
      _ _ _ _ _); reflexivity. }
  split; [int_range|]. split; [reflexivity|].
  split; [exact Hpx|]. unfold schwarz. rewrite Hpx. reflexivity.
Qed.

Lemma pixel_layout_witness :
  let sky := flat (f32 1 4) half one one in
  let sphere := flat one one one one in
  let px := mkPixel 255 127 63 0 in
  schwarz_dev binary32 angles8 outcomes8 2 2 2 FP.zero cy600 sky sphere 1 8
    1 1 frame
  = Some (<[3%nat := px]> frame)
  /\ exists s res_r' res_g' res_b',
       aa_loops_dev binary32 angles8 outcomes8 2 2 FP.zero cy600 sky sphere
         1 8 1 1 (Acc 0 0 0) = Some s
       /\ Int.div (res_r s) (Int.mul 1 1) = Some res_r'
       /\ Int.div (res_g s) (Int.mul 1 1) = Some res_g'
       /\ Int.div (res_b s) (Int.mul 1 1) = Some res_b'
       /\ <[3%nat := px]> frame !! 3%nat
          = Some {| a := Int.wrap_uchar res_b'; r := Int.wrap_uchar res_g';
                    g := Int.wrap_uchar res_r'; b := 0 |}.
Proof.
  cbv zeta.
  assert (H : schwarz_dev binary32 angles8 outcomes8 2 2 2 FP.zero cy600
                (flat (f32 1 4) half one one) (flat one one one one) 1 8
                1 1 frame
              = Some (<[3%nat := mkPixel 255 127 63 0]> frame))
    by (vm_compute; reflexivity).
  split; [exact H|].
  destruct (pixel_layout binary32 Device.sin Device.cos Device.acos
              Device.atan2 Device.vlength Device.image2d_t Device.read_imagef
              angles8 outcomes8 2 2 2 FP.zero cy600
              (flat (f32 1 4) half one one) (flat one one one one) 1 8
              1 1 frame _ H)
    as (s & qr & qg & qb & Hs & Hr & Hg & Hb & Hpx & _).
  exists s, qr, qg, qb. repeat (split; [assumption|]). exact Hpx.
Defined.

(** C1 as the spec has it fails: with a sky of red 1/4, green 1/2 and blue
    1 the accumulators end at red 63, green 127 and blue 255, and the pixel
    stored has 255 in [a], 127 in [r], 63 in [g] and 0 in [b], where the
    spec puts 0 in alpha, blue in red, green in green and red in blue. *)
Lemma stored_pixel_order :
  let sky := flat (f32 1 4) half one one in
  let sphere := flat one one one one in
  aa_loops_dev binary32 angles8 outcomes8 2 2 FP.zero cy600 sky sphere
    1 8 1 1 (Acc 0 0 0)
  = Some {| res_r := 63; res_g := 127; res_b := 255 |}
  /\ schwarz_dev binary32 angles8 outcomes8 2 2 2 FP.zero cy600 sky sphere
       1 8 1 1 frame
     = Some (<[3%nat := {| a := 255; r := 127; g := 63; b := 0 |}]> frame)
  /\ {| a := 255; r := 127; g := 63; b := 0 |}
     <> {| a := 0; r := 255; g := 127; b := 63 |}.
Proof.
  cbv zeta. split; [vm_compute; reflexivity|].
  split; [vm_compute; reflexivity | discriminate].
Qed.

Lemma alpha_noninterference_witness :
  let work := [(0, 0); (1, 0); (0, 1); (1, 1)] in
  let run sky sphere :=
    nd_range work
      (schwarz_dev binary32 angles8 outcomes8 2 2 2 FP.zero cy600
         sky sphere 2 8) frame in
  same_colours Device.image2d_t Device.read_imagef
    (two_tone one) (two_tone half)
  /\ same_colours Device.image2d_t Device.read_imagef
       (flat one half one one) (flat one half one FP.zero)
  /\ run (two_tone one) (flat one half one one)
     = run (two_tone half) (flat one half one FP.zero)
  /\ run (two_tone one) (flat one half one one)
     = Some [mkPixel 0 0 255 0; mkPixel 0 0 255 0;
             mkPixel 15 31 191 0; mkPixel 31 63 127 0].
Proof.
  cbv zeta.
  assert (H1 : same_colours Device.image2d_t Device.read_imagef
                 (two_tone one) (two_tone half)).
  { intros coords. unfold Device.read_imagef, two_tone.
    destruct (FP.ltb (f2y coords) (f32 3 4)); repeat split. }
  assert (H2 : same_colours Device.image2d_t Device.read_imagef
                 (flat one half one one) (flat one half one FP.zero)).
  { intros coords. repeat split. }
  repeat (split; [assumption|]).
  split; [|vm_compute; reflexivity].
  apply (alpha_noninterference binary32 Device.sin Device.cos Device.acos
           Device.atan2 Device.vlength Device.image2d_t Device.read_imagef
           angles8 outcomes8 2 2 2 FP.zero cy600 _ _ _ _ 2 8 _ frame H1 H2).
Defined.

(** Tables built with [min = max = 0]: from [start_r = 21] both rays fall
    into the hole, at the angle [M_PI/2 - M_PI]; from [start_r = 501] the
    first step leaves the ray beyond [r = 500], and it counts as escaped. *)
Lemma direct_hit_sample :
  ray_outcome_dev binary32 FP.zero FP.zero 2 r21 0
  = mkRes (S754_finite true 13176795 (-23)) 0
  /\ ray_outcome_dev binary32 FP.zero FP.zero 2 r21 1
     = mkRes (S754_finite true 13176795 (-23)) 0
  /\ outcome (ray_outcome_dev binary32 FP.zero FP.zero 2
                (FP.of_Z binary32 501) 0) = 1.
Proof.
  do 2 (split; [vm_compute; reflexivity|]). vm_compute. reflexivity.
Qed.

(** ** The further properties at sample inputs *)

Lemma loop_same_orbit_witness :
  let s := Ray r21 one (FP.opp one) FP.zero in
  let s' := Ray r21 half (FP.opp one) FP.zero in
  same_orbit s s'
  /\ (loop binary32 200 s).2 = (loop binary32 200 s').2
  /\ ray_r (loop binary32 200 s).1 = ray_r (loop binary32 200 s').1.
Proof.
  cbv zeta.
  assert (H : same_orbit (Ray r21 one (FP.opp one) FP.zero)
                         (Ray r21 half (FP.opp one) FP.zero))
    by (repeat split).
  split; [exact H|].
  destruct (loop_same_orbit binary32 200 _ _ H) as (Hhit & (Hr & _) & _).
  split; [exact Hhit | exact Hr].
Defined.

Lemma degenerate_start_witness :
  (FP.is_zero FP.zero = true \/ FP.is_finite FP.zero = false)
  /\ ray_dr (initial binary32 (FP.opp one) one 3 FP.zero 1) = S754_nan
  /\ outcome (ray_outcome_dev binary32 (FP.opp one) one 3 FP.zero 1) = 1.
Proof.
  assert (H : FP.is_zero FP.zero = true \/ FP.is_finite FP.zero = false)
    by (left; reflexivity).
  split; [exact H|].
  destruct (degenerate_start binary32 Device.sin Device.cos Device.atan2
              (FP.opp one) one 3 FP.zero 1 H) as (Hdr & _ & _ & Hout).
  split; [exact Hdr | exact Hout].
Defined.

Lemma direct_aim_witness :
  let s0 := initial binary32 FP.zero FP.zero 2 r21 0 in
  let res := ray_outcome_dev binary32 FP.zero FP.zero 2 r21 0 in
  standard binary32
  /\ FP.is_zero FP.zero = true
  /\ zero_or_nan (ray_dtheta (after binary32 50 s0))
  /\ (outcome res = 0 ->
      angle res
      = FP.cvt binary32
          (FP.sub binary32
             (FP.div binary32 (M_PI binary32) (FP.of_Z binary32 2))
             (FP.cvt binary32 (FP.cvt binary32 (M_PI binary32))))
      \/ angle res = S754_nan).
Proof.
  cbv zeta.
  assert (H0 : standard binary32) by (left; reflexivity).
  assert (H1 : FP.is_zero FP.zero = true) by reflexivity.
  do 2 (split; [assumption|]).
  destruct (direct_aim binary32 Device.sin Device.cos Device.atan2
              FP.zero FP.zero 2 r21 0 H0 H1 H1) as [Hrate Hangle].
  split; [exact (Hrate 50%nat) | exact Hangle].
Defined.



Lemma gen_outcomes_order_witness :
  let item := gen_item binary32 Device.sin Device.cos Device.atan2
                (FP.opp one) one 3 r21 in
  [0; 1; 2] ≡ₚ [2; 0; 1]
  /\ work_items item [0; 1; 2] (angles3, outcomes3)
     = work_items item [2; 0; 1] (angles3, outcomes3).
Proof.
  cbv zeta.
  assert (H : [0; 1; 2] ≡ₚ [2; 0; 1]).
  { apply (perm_trans (l' := [0; 2; 1])).
    - apply perm_skip, perm_swap.
    - apply perm_swap. }
  split; [exact H|].
  exact (gen_outcomes_order binary32 Device.sin Device.cos Device.atan2
           (FP.opp one) one 3 r21 _ _ (angles3, outcomes3) H).
Defined.

Lemma gen_outcomes_fills_witness :
  length outcomes3 = length angles3
  /\ Z.of_nat (length angles3) <= Int.INT_MAX
  /\ work_items
       (gen_item binary32 Device.sin Device.cos Device.atan2
          (FP.opp one) one 3 r21)
       (seqZ 0 (Z.of_nat (length angles3))) (angles3, outcomes3)
     = Some ([S754_finite true 13592171 (-23);
              S754_finite true 13176795 (-23);
              S754_finite true 12761419 (-23)], [0; 0; 0]).
Proof.
  assert (H1 : length outcomes3 = length angles3) by reflexivity.
  assert (H2 : Z.of_nat (length angles3) <= Int.INT_MAX) by int_range.
  do 2 (split; [assumption|]).
  destruct (gen_outcomes_fills binary32 Device.sin Device.cos Device.atan2
              angles3 outcomes3 (FP.opp one) one 3 r21 H1 H2) as [Hrun _].
  rewrite Hrun. vm_compute. reflexivity.
Defined.

Lemma lookup_reads_witness :
  lookup binary32 angles3 outcomes3 half = Some (mkRes (f32 3 8) 1)
  /\ exists posi,
       FP.to_int half = Some posi
       /\ 0 <= posi
       /\ posi + 1 < Z.of_nat (length outcomes3)
       /\ outcomes3 !! Z.to_nat posi = Some 1.
Proof.
  assert (H : lookup binary32 angles3 outcomes3 half
              = Some (mkRes (f32 3 8) 1)) by (vm_compute; reflexivity).
  split; [exact H|].
  destruct (lookup_reads binary32 angles3 outcomes3 half _ H)
    as (posi & Hi & _ & H0 & H1 & _ & Hout & _).
  exists posi. do 3 (split; [assumption|]). exact Hout.
Defined.

Lemma table_round_trip_witness :
  let ray := ray_outcome_dev binary32 (FP.opp one) one 3 r21 in
  length outcomes3 = length angles3
  /\ Z.of_nat (length angles3) <= Int.INT_MAX
  /\ FP.floor half = Some 0
  /\ 0 <= 0 <= Z.of_nat (length angles3) - 2
  /\ exists t res,
       work_items
         (gen_item binary32 Device.sin Device.cos Device.atan2
            (FP.opp one) one 3 r21)
         (seqZ 0 (Z.of_nat (length angles3))) (angles3, outcomes3) = Some t
       /\ lookup binary32 t.1 t.2 half = Some res
       /\ outcome res = outcome (ray 0).
Proof.
  cbv zeta.
  assert (H1 : length outcomes3 = length angles3) by reflexivity.
  assert (H2 : Z.of_nat (length angles3) <= Int.INT_MAX) by int_range.
  assert (H3 : FP.floor half = Some 0) by reflexivity.
  assert (H4 : 0 <= 0 <= Z.of_nat (length angles3) - 2) by (simpl; lia).
  do 4 (split; [assumption|]).
  destruct (table_round_trip binary32 Device.sin Device.cos Device.atan2
              angles3 outcomes3 (FP.opp one) one 3 r21 half 0 H1 H2 H3 H4)
    as (t & res & Hrun & Hlook & Hout & _).
  exists t, res. do 2 (split; [assumption|]). exact Hout.
Defined.

Lemma narrow_screen_witness :
  0 <= 1 < 2
  /\ FP.is_finite (f2x (sample_point binary32 1 1 1 0 0 0 0)) = false
  /\ FP.is_finite (f2y (sample_point binary32 1 1 1 0 0 0 0)) = false.
Proof.
  assert (H : 0 <= 1 < 2) by lia.
  split; [exact H|].
  exact (narrow_screen binary32 1 1 1 0 0 0 0 H).
Defined.

Lemma no_supersamples_witness :
  -1 <= 0
  /\ final_pixel_dev binary32 angles8 outcomes8 2 2 FP.zero cy600
       (two_tone one) (flat one one one one) (-1) 8 1 1
     = Some (mkPixel 0 0 0 0)
  /\ schwarz_dev binary32 angles8 outcomes8 2 2 2 FP.zero cy600
       (two_tone one) (flat one one one one) (-1) 8 1 1
       (repeat (mkPixel 9 9 9 9) 4)
     = Some (<[3%nat := mkPixel 0 0 0 0]> (repeat (mkPixel 9 9 9 9) 4)).
Proof.
  assert (H : -1 <= 0) by lia.
  split; [exact H|].
  destruct (no_supersamples binary32 Device.sin Device.cos Device.acos
              Device.atan2 Device.vlength Device.image2d_t Device.read_imagef
              angles8 outcomes8 2 2 2 FP.zero cy600 8 (two_tone one)
              (flat one one one one) (-1) 1 1 (repeat (mkPixel 9 9 9 9) 4) H)
    as (_ & Hpx & Hk).
  split; [rewrite Hpx | rewrite Hk]; reflexivity.
Defined.

Lemma texture_choice_witness :
  Forall (fun o => o <> 0) outcomes8
  /\ schwarz_dev binary32 angles8 outcomes8 2 2 2 FP.zero cy600
       (two_tone one) (flat one one one one) 2 8 1 1 frame
     = schwarz_dev binary32 angles8 outcomes8 2 2 2 FP.zero cy600
         (two_tone one) (flat FP.zero half one one) 2 8 1 1 frame.
Proof.
  assert (H : Forall (fun o => o <> 0) outcomes8)
    by (repeat constructor; discriminate).
  split; [exact H|].
  exact (proj1 (texture_choice binary32 Device.sin Device.cos Device.acos
                  Device.atan2 Device.vlength Device.image2d_t
                  Device.read_imagef angles8 outcomes8 2 2 2 FP.zero cy600 8
                  (two_tone one) (two_tone one) (flat one one one one)
                  (flat FP.zero half one one) 2 1 1 frame) H).
Defined.

Lemma schwarz_order_witness :
  let kernel := schwarz_dev binary32 angles8 outcomes8 2 2 2 FP.zero cy600
                  (two_tone one) (flat one half one one) 2 8 in
  [(0, 0); (1, 0); (0, 1)] ≡ₚ [(0, 1); (0, 0); (1, 0)]
  /\ Forall (in_row 2) [(0, 0); (1, 0); (0, 1)]
  /\ nd_range [(0, 0); (1, 0); (0, 1)] kernel frame
     = nd_range [(0, 1); (0, 0); (1, 0)] kernel frame.
Proof.
  cbv zeta.
  assert (H1 : [(0, 0); (1, 0); (0, 1)] ≡ₚ [(0, 1); (0, 0); (1, 0)]).
  { apply (perm_trans (l' := [(0, 0); (0, 1); (1, 0)])).
    - apply perm_skip, perm_swap.
    - apply perm_swap. }
  assert (H2 : Forall (in_row 2) [(0, 0); (1, 0); (0, 1)]).
  { repeat (constructor; [unfold in_row, Int.INT_MAX; simpl; lia|]).
    constructor. }
  do 2 (split; [assumption|]).
  exact (schwarz_order binary32 Device.sin Device.cos Device.acos
           Device.atan2 Device.vlength Device.image2d_t Device.read_imagef
           angles8 outcomes8 2 2 2 FP.zero cy600 8 (two_tone one)
           (flat one half one one) 2 _ _ frame H1 H2).
Defined.

Lemma schwarz_image_witness :
  let kernel := schwarz_dev binary32 angles8 outcomes8 2 2 2 FP.zero cy600
                  (flat (f32 1 4) half one one) (flat one half one one)
                  1 8 in
  let px := mkPixel 255 127 63 0 in
  let image := [mkPixel 0 0 0 0; px; mkPixel 0 0 0 0; px] in
  Forall (in_row 2) [(1, 0); (1, 1)]
  /\ nd_range [(1, 0); (1, 1)] kernel frame = Some image
  /\ length image = length frame
  /\ image !! Z.to_nat (1 + 1 * 2)
     = final_pixel_dev binary32 angles8 outcomes8 2 2 FP.zero cy600
         (flat (f32 1 4) half one one) (flat one half one one) 1 8 1 1
  /\ image !! 2%nat = frame !! 2%nat.
Proof.
  cbv zeta.
  assert (H1 : Forall (in_row 2) [(1, 0); (1, 1)]).
  { repeat (constructor; [unfold in_row, Int.INT_MAX; simpl; lia|]).
    constructor. }
  assert (H2 : nd_range [(1, 0); (1, 1)]
                 (schwarz_dev binary32 angles8 outcomes8 2 2 2 FP.zero cy600
                    (flat (f32 1 4) half one one) (flat one half one one)
                    1 8) frame
               = Some [mkPixel 0 0 0 0; mkPixel 255 127 63 0;
                       mkPixel 0 0 0 0; mkPixel 255 127 63 0])
    by (vm_compute; reflexivity).
  do 2 (split; [assumption|]).
  destruct (schwarz_image binary32 Device.sin Device.cos Device.acos
              Device.atan2 Device.vlength Device.image2d_t Device.read_imagef
              angles8 outcomes8 2 2 2 FP.zero cy600 8
              (flat (f32 1 4) half one one) (flat one half one one) 1
              _ frame _ H1 H2) as (Hlen & Hpix & Hrest).
  split; [exact Hlen|]. split.
  - apply (Hpix 1 1). right. left.
  - apply Hrest. intros gid0 gid1 Hin.
    apply elem_of_cons in Hin as [E | Hin].
    + injection E as -> ->. discriminate.
    + apply elem_of_cons in Hin as [E | Hin];
        [injection E as -> ->; discriminate | inversion Hin].
Defined.
